(** * update_plot: a shallow embedding of [cli/update_plot.py]

    The script reads fixed 8-byte frames from standard input, decodes each
    as two little-endian unsigned 32-bit integers, prints the pair, and
    hands it to a plotting callback that widens running bounds, sets the
    axis limits and appends the point to the plotted series.

    Python objects are embedded as follows.
    - [bytes] values are [list byte].
    - Python [int]s are [Z].
    - Python [float]s are the kernel's binary64 floats ([PrimFloat.float]):
      the same IEEE 754 format and round-to-nearest-even arithmetic.
    - The module-level globals [x_max, x_min, y_max, y_min, x, y], the axes
      [ax] and the plotted [line] are the fields of one record that
      [animate] takes and returns.
    - [sys.stdin.buffer] is the list of bytes that are still to come before
      the end of the input.
    - [print] and [yield] append to an event log, so that their order can
      be read off. *)

From Stdlib Require Import ZArith List Bool Lia String Ascii.
From Stdlib Require Import Strings.Byte.
From Stdlib Require Import Uint63 Floats.
From Stdlib Require Import DecimalString.
Import ListNotations.

Local Open Scope Z_scope.

(** ** Frames: [struct.unpack('<II', line)] *)

Module Frame.

Definition byte_val (b : byte) : Z := Z.of_N (Byte.to_N b).

(** One ['<I'] field: four bytes, least significant first. *)
Definition le_u32 (b0 b1 b2 b3 : byte) : Z :=
  Z.lor (Z.lor (Z.lor (byte_val b0)
                      (Z.shiftl (byte_val b1) 8))
               (Z.shiftl (byte_val b2) 16))
        (Z.shiftl (byte_val b3) 24).

(** [struct.unpack('<II', line)]: the format is 8 bytes wide; a buffer of
    any other length raises [struct.error], here [None]. *)
Definition unpack_II (line : list byte) : option (Z * Z) :=
  match line with
  | [a; b; c; d; e; f; g; h] => Some (le_u32 a b c d, le_u32 e f g h)
  | _ => None
  end.

(** The encoding the decoder is compared with: [struct.pack('<II', x, y)],
    each value written as four bytes, least significant first.  It is not
    part of the script. *)
Definition byte_of_Z (z : Z) : byte :=
  match Byte.of_N (Z.to_N (z mod 256)) with
  | Some b => b
  | None => x00
  end.

Definition le_bytes_u32 (v : Z) : list byte :=
  [ byte_of_Z v;
    byte_of_Z (Z.shiftr v 8);
    byte_of_Z (Z.shiftr v 16);
    byte_of_Z (Z.shiftr v 24) ].

Definition pack_II (x y : Z) : list byte := le_bytes_u32 x ++ le_bytes_u32 y.

End Frame.

Example unpack_scenario_A :
  Frame.unpack_II [x00; x00; x00; x00; x00; x00; x00; x00] = Some (0, 0).
Proof. reflexivity. Qed.

Example unpack_scenario_B :
  Frame.unpack_II [x01; x00; x00; x00; x02; x00; x00; x00] = Some (1, 2).
Proof. reflexivity. Qed.

(** ** Python numbers *)

Module PyNum.

(** [float(n)] for a Python [int] [n] with [0 <= n < 2^63]: the nearest
    binary64 value.  The primitive conversion takes a 63-bit unsigned
    integer, so outside that range this is not Python's [float]; the range
    covers every value the script converts (32-bit fields and the two
    initial bounds). *)
Definition float_of_int (n : Z) : float := PrimFloat.of_uint63 (Uint63.of_Z n).

(** [repr] of a Python [int], as [print] writes it. *)
Definition repr_int (n : Z) : string := NilZero.string_of_int (Z.to_int n).

(** [repr] of a 2-tuple of [int]s: [(x, y)]. *)
Definition repr_pair (v : Z * Z) : string :=
  ("(" ++ repr_int (fst v) ++ ", " ++ repr_int (snd v) ++ ")")%string.

Definition newline : string := String (ascii_of_nat 10) EmptyString.

End PyNum.

(** ** The data generator: [data_gen] *)

Module Reader.

(** What the generator does to the outside world, in order. *)
Inductive event :=
| Read (got : list byte)      (* [fd.read(8)] returned [got] *)
| Print (text : string)       (* [print] wrote [text] to standard output *)
| Yield (value : Z * Z).      (* the generator handed [value] to its consumer *)

(** [fd] with the bytes still to come, and the log of events so far. *)
Record io := { stdin : list byte; trace : list event }.

Definition start (input : list byte) : io := {| stdin := input; trace := [] |}.

Definition log (e : event) (w : io) : io :=
  {| stdin := stdin w; trace := trace w ++ [e] |}.

(** [fd.read(n)] on the buffered standard input: the next [n] bytes, or
    all that is left when the input ends before that (nothing at all once
    it has ended). *)
Definition fd_read (n : nat) (w : io) : list byte * io :=
  let got := firstn n (stdin w) in
  (got, log (Read got) {| stdin := skipn n (stdin w); trace := trace w |}).

(** [print(value)]: the tuple's [repr] and a newline. *)
Definition print (value : Z * Z) (w : io) : io :=
  log (Print (PyNum.repr_pair value ++ PyNum.newline)%string) w.

(** How one pass through a loop body ends. *)
Inductive ctl :=
| Continue                    (* reached the end of the body *)
| Suspend (value : Z * Z)     (* [yield value] *)
| Raise.                      (* an exception left the body *)

(** The body of [while True:] in [data_gen] (lines 45-49).  The [if] has
    no [else]: a read of any other length falls through to the next
    iteration. *)
Definition data_gen_body (w : io) : ctl * io :=
  let (line, w1) := fd_read 8 w in
  if Nat.eqb (List.length line) 8 then
    match Frame.unpack_II line with
    | Some value =>
        let w2 := print value w1 in
        (Suspend value, log (Yield value) w2)
    | None => (Raise, w1)
    end
  else (Continue, w1).

(** What a call of [next] on a generator comes back with. *)
Inductive step :=
| Yielded (value : Z * Z) (w : io)
| StopIteration (w : io)      (* the generator function returned *)
| Raised (w : io)
| Spinning (w : io).          (* still inside the loop after [fuel] passes *)

(** A generator whose function is one [while cond:] loop with the [yield]
    as the last statement of the body: [next] runs passes until one
    suspends; resuming starts the next pass.  The function returns, and
    [next] raises [StopIteration], when the condition is false. *)
Fixpoint while_gen (cond : io -> bool) (body : io -> ctl * io)
         (fuel : nat) (w : io) : step :=
  match fuel with
  | O => Spinning w
  | S fuel' =>
      if cond w then
        match body w with
        | (Continue, w') => while_gen cond body fuel' w'
        | (Suspend value, w') => Yielded value w'
        | (Raise, w') => Raised w'
        end
      else StopIteration w
  end.

(** [next(data_gen())], and every later [next] on the same generator. *)
Definition data_gen : nat -> io -> step :=
  while_gen (fun _ => true) data_gen_body.

(** The values and the texts in a log. *)
Definition yielded (t : list event) : list (Z * Z) :=
  flat_map (fun e => match e with Yield v => [v] | _ => [] end) t.

Definition printed (t : list event) : list string :=
  flat_map (fun e => match e with Print s => [s] | _ => [] end) t.

(** The consumer asks for one item after another, letting the [k]-th
    request run for [nth k fuels] passes. *)
Fixpoint pull (fuels : list nat) (w : io) : io :=
  match fuels with
  | [] => w
  | fuel :: rest =>
      match data_gen fuel w with
      | Yielded _ w' => pull rest w'
      | Spinning w' => pull rest w'
      | StopIteration w' => w'
      | Raised w' => w'
      end
  end.

End Reader.

(** ** The update callback: [animate] *)

Module Updater.

(** The script's globals.  [ax_xlim], [ax_ylim] are what [ax.set_xlim]
    and [ax.set_ylim] last set; [line_data] is what [line.set_data] last
    set. *)
Record globals := {
  x_max : float;
  x_min : float;
  y_max : float;
  y_min : float;
  x : list float;
  y : list float;
  ax_xlim : float * float;
  ax_ylim : float * float;
  line_data : list float * list float
}.

(** The callback's local variables. *)
Record locals := { x_new : float; y_new : float }.

Definition set_x_max (v : float) (g : globals) : globals :=
  {| x_max := v; x_min := x_min g; y_max := y_max g; y_min := y_min g;
     x := x g; y := y g; ax_xlim := ax_xlim g; ax_ylim := ax_ylim g;
     line_data := line_data g |}.

Definition set_x_min (v : float) (g : globals) : globals :=
  {| x_max := x_max g; x_min := v; y_max := y_max g; y_min := y_min g;
     x := x g; y := y g; ax_xlim := ax_xlim g; ax_ylim := ax_ylim g;
     line_data := line_data g |}.

Definition set_y_max (v : float) (g : globals) : globals :=
  {| x_max := x_max g; x_min := x_min g; y_max := v; y_min := y_min g;
     x := x g; y := y g; ax_xlim := ax_xlim g; ax_ylim := ax_ylim g;
     line_data := line_data g |}.

Definition set_y_min (v : float) (g : globals) : globals :=
  {| x_max := x_max g; x_min := x_min g; y_max := y_max g; y_min := v;
     x := x g; y := y g; ax_xlim := ax_xlim g; ax_ylim := ax_ylim g;
     line_data := line_data g |}.

(** [ax.set_xlim(left, right)] and [ax.set_ylim(bottom, top)]. *)
Definition set_xlim (left right : float) (g : globals) : globals :=
  {| x_max := x_max g; x_min := x_min g; y_max := y_max g; y_min := y_min g;
     x := x g; y := y g; ax_xlim := (left, right); ax_ylim := ax_ylim g;
     line_data := line_data g |}.

Definition set_ylim (bottom top : float) (g : globals) : globals :=
  {| x_max := x_max g; x_min := x_min g; y_max := y_max g; y_min := y_min g;
     x := x g; y := y g; ax_xlim := ax_xlim g; ax_ylim := (bottom, top);
     line_data := line_data g |}.

(** [x.append(v)], [y.append(v)] and [line.set_data(x, y)]. *)
Definition x_append (v : float) (g : globals) : globals :=
  {| x_max := x_max g; x_min := x_min g; y_max := y_max g; y_min := y_min g;
     x := x g ++ [v]; y := y g; ax_xlim := ax_xlim g; ax_ylim := ax_ylim g;
     line_data := line_data g |}.

Definition y_append (v : float) (g : globals) : globals :=
  {| x_max := x_max g; x_min := x_min g; y_max := y_max g; y_min := y_min g;
     x := x g; y := y g ++ [v]; ax_xlim := ax_xlim g; ax_ylim := ax_ylim g;
     line_data := line_data g |}.

Definition set_data (g : globals) : globals :=
  {| x_max := x_max g; x_min := x_min g; y_max := y_max g; y_min := y_min g;
     x := x g; y := y g; ax_xlim := ax_xlim g; ax_ylim := ax_ylim g;
     line_data := (x g, y g) |}.

(** One statement of the callback acts on its locals and the globals. *)
Definition stmt := locals * globals -> locals * globals.

Definition on_globals (f : locals -> globals -> globals) : stmt :=
  fun s => (fst s, f (fst s) (snd s)).

(** Lines 28 and 29: the axis limits, from the bounds as they are when
    the statement runs.  [0.99] and [1.01] denote the nearest binary64
    values, as they do in Python. *)
#[local] Set Warnings "-inexact-float".

Definition set_xlim_stmt : stmt :=
  on_globals (fun _ g =>
    set_xlim (x_min g * 0.99 - 1)%float (x_max g * 1.01 + 1)%float g).

Definition set_ylim_stmt : stmt :=
  on_globals (fun _ g =>
    set_ylim (y_min g * 0.99 - 1)%float (y_max g * 1.01 + 1)%float g).

#[local] Set Warnings "inexact-float".

(** The statements inside [try:] (lines 16-36), in order.  The closing
    [return line,] changes neither the locals nor the globals, but it is
    still inside [try:], so an exception can arrive at it and be handled. *)
Definition animate_body (data : Z * Z) : list stmt :=
  [ (* x_new = float(data[0]) *)
    (fun s => ({| x_new := PyNum.float_of_int (fst data);
                  y_new := y_new (fst s) |}, snd s));
    (* y_new = float(data[1]) *)
    (fun s => ({| x_new := x_new (fst s);
                  y_new := PyNum.float_of_int (snd data) |}, snd s));
    (* if x_new > x_max: x_max = x_new *)
    on_globals (fun l g =>
      if (x_max g <? x_new l)%float then set_x_max (x_new l) g else g);
    (* if x_new < x_min: x_min = x_new *)
    on_globals (fun l g =>
      if (x_new l <? x_min g)%float then set_x_min (x_new l) g else g);
    (* if y_new > y_max: y_max = y_new *)
    on_globals (fun l g =>
      if (y_max g <? y_new l)%float then set_y_max (y_new l) g else g);
    (* if y_new < y_min: y_min = y_new *)
    on_globals (fun l g =>
      if (y_new l <? y_min g)%float then set_y_min (y_new l) g else g);
    set_xlim_stmt;
    set_ylim_stmt;
    (* x.append(x_new); y.append(y_new) *)
    on_globals (fun l g => x_append (x_new l) g);
    on_globals (fun l g => y_append (y_new l) g);
    (* line.set_data(x, y) *)
    on_globals (fun _ g => set_data g);
    (* return line, *)
    (fun s => s) ].

(** Exceptions that can arrive while the callback runs. *)
Inductive exn :=
| KeyboardInterrupt
| OtherException (name : string).

(** Run statements in order.  [raised = Some (k, e)] makes exception [e]
    arrive when [k] statements have run, at the next one; what the
    statements before it did stays done.  An exception due only after the
    last statement, [return line,], arrives outside the [try:]. *)
Fixpoint exec (body : list stmt) (raised : option (nat * exn))
         (s : locals * globals) : (locals * globals) + exn * (locals * globals) :=
  match body with
  | [] => inl s
  | c :: rest =>
      match raised with
      | Some (O, e) => inr (e, s)
      | Some (S k, e) => exec rest (Some (k, e)) (c s)
      | None => exec rest None (c s)
      end
  end.

(** How a call of the callback ends. *)
Inductive outcome :=
| Returned (g : globals)                (* [return line,] *)
| Exited (status : Z) (g : globals)     (* [sys.exit(status)] *)
| Propagated (e : exn) (g : globals).   (* no [except] clause matched *)

(** The [except] clauses of the callback (lines 38-39): there is one. *)
Definition handle (e : exn) (g : globals) : outcome :=
  match e with
  | KeyboardInterrupt => Exited 0 g
  | OtherException _ => Propagated e g
  end.

(** Locals are unbound on entry; both are assigned before they are read. *)
Definition unbound : locals := {| x_new := 0%float; y_new := 0%float |}.

(** [animate(data)], with an exception possibly arriving on the way. *)
Definition animate_try (raised : option (nat * exn)) (data : Z * Z)
           (g : globals) : outcome :=
  match exec (animate_body data) raised (unbound, g) with
  | inl s => Returned (snd s)
  | inr (e, s) => handle e (snd s)
  end.

(** [animate(data)] when nothing interrupts it. *)
Definition animate (data : Z * Z) (g : globals) : globals :=
  snd (fold_left (fun s (c : stmt) => c s) (animate_body data) (unbound, g)).

(** The callback applied to one record after another. *)
Definition process (records : list (Z * Z)) (g : globals) : globals :=
  fold_left (fun g data => animate data g) records g.

(** Lines 57-63: the globals before the first record.  The script writes
    the four bounds as [int] literals; every use of a bound compares it
    with a [float] or multiplies it by one, where Python takes the [int] at
    its numeric value, and both literals are binary64 values, so a bound is
    held as the [float] of its literal from the start.  The initial view is
    the plotting library's. *)
Definition init (xlim ylim : float * float) : globals :=
  {| x_max := PyNum.float_of_int 0;
     x_min := PyNum.float_of_int 999999999;
     y_max := PyNum.float_of_int 0;
     y_min := PyNum.float_of_int 999999999;
     x := []; y := [];
     ax_xlim := xlim; ax_ylim := ylim;
     line_data := ([], []) |}.

End Updater.

(** ** The animation loop: [FuncAnimation(fig, animate, frames=data_gen)] *)

Module Main.

(** The plotting library asks the generator for a frame and passes it to
    the callback, up to [n] times; it stops when the generator does not
    deliver one. *)
Fixpoint animation (n fuel : nat) (w : Reader.io) (g : Updater.globals)
  : Reader.io * Updater.globals :=
  match n with
  | O => (w, g)
  | S n' =>
      match Reader.data_gen fuel w with
      | Reader.Yielded data w' => animation n' fuel w' (Updater.animate data g)
      | Reader.StopIteration w' => (w', g)
      | Reader.Raised w' => (w', g)
      | Reader.Spinning w' => (w', g)
      end
  end.

End Main.

(** Three frames and three more bytes; the fourth request gets nothing. *)
Example three_frames_and_a_tail :
  Reader.yielded
    (Reader.trace
       (Reader.pull [1; 1; 1; 5]%nat
          (Reader.start
             [x01; x00; x00; x00; x02; x00; x00; x00;
              x03; x00; x00; x00; x04; x00; x00; x00;
              x00; x01; x00; x00; xff; xff; xff; xff;
              xaa; xbb; xcc])))
  = [(1, 2); (3, 4); (256, 4294967295)].
Proof. reflexivity. Qed.

(** ** Vocabulary of the statements below *)

Module Spec.

(** An unsigned 32-bit value, and a record of two of them. *)
Definition u32 (v : Z) : Prop := 0 <= v < 2 ^ 32.

Definition record_ok (data : Z * Z) : Prop := u32 (fst data) /\ u32 (snd data).

(** The greatest and the least of a starting value and a list. *)
Definition maximum (sentinel : Z) (vs : list Z) : Z := fold_left Z.max vs sentinel.

Definition minimum (sentinel : Z) (vs : list Z) : Z := fold_left Z.min vs sentinel.

(** One bound after one more value: lines 20-27 of [animate]. *)
Definition widen_max (bound v : float) : float :=
  if (bound <? v)%float then v else bound.

Definition widen_min (bound v : float) : float :=
  if (v <? bound)%float then v else bound.

(** The four bounds and the two axis ranges of the globals. *)
Definition bounds (g : Updater.globals) : float * float * float * float :=
  (Updater.x_min g, Updater.x_max g, Updater.y_min g, Updater.y_max g).

Definition limits (g : Updater.globals) : (float * float) * (float * float) :=
  (Updater.ax_xlim g, Updater.ax_ylim g).

#[local] Set Warnings "-inexact-float".

(** The padded range of one axis. *)
Definition padded (lo hi : float) : float * float :=
  ((lo * 0.99 - 1)%float, (hi * 1.01 + 1)%float).

#[local] Set Warnings "inexact-float".

Definition display_limits (b : float * float * float * float)
  : (float * float) * (float * float) :=
  let '(xmin, xmax, ymin, ymax) := b in (padded xmin xmax, padded ymin ymax).

(** The line [print] writes for a record. *)
Definition line_of (value : Z * Z) : string :=
  (PyNum.repr_pair value ++ PyNum.newline)%string.

(** The globals when the first [k] statements of the callback have run. *)
Definition after_statements (k : nat) (data : Z * Z) (g : Updater.globals)
  : Updater.globals :=
  snd (fold_left (fun s (c : Updater.stmt) => c s)
                 (firstn k (Updater.animate_body data)) (Updater.unbound, g)).

(** The reads of a generator left with fewer than 8 bytes, over [fuel]
    passes: the first returns what is left, every later one nothing. *)
Definition idle_reads (fuel : nat) (rest : list byte) : list Reader.event :=
  match fuel with
  | O => []
  | S fuel' => Reader.Read rest :: repeat (Reader.Read []) fuel'
  end.

(** Logs in which every [Yield] comes right after the [Print] of the same
    record's line, and every [Print] is followed by its [Yield]. *)
Inductive paired : list Reader.event -> Prop :=
| paired_nil : paired []
| paired_read (t : list Reader.event) (got : list byte) :
    paired t -> paired (t ++ [Reader.Read got])
| paired_record (t : list Reader.event) (value : Z * Z) :
    paired t ->
    paired (t ++ [Reader.Print (line_of value); Reader.Yield value]).

(** Whether a text contains a line break. *)
Fixpoint has_newline (s : string) : bool :=
  match s with
  | EmptyString => false
  | String c rest => Ascii.eqb c (ascii_of_nat 10) || has_newline rest
  end.

(** The [io] a call of [next] leaves behind. *)
Definition io_of (r : Reader.step) : Reader.io :=
  match r with
  | Reader.Yielded _ w => w
  | Reader.StopIteration w => w
  | Reader.Raised w => w
  | Reader.Spinning w => w
  end.

End Spec.

(** The bounds [(x_min, x_max, y_min, y_max)] after one record. *)
Example zero_record_bounds :
  Spec.bounds (Updater.animate (0, 0) (Updater.init (0, 1)%float (0, 1)%float))
  = (0, 0, 0, 0)%float.
Proof. reflexivity. Qed.

Example one_two_record_bounds :
  Spec.bounds (Updater.animate (1, 2) (Updater.init (0, 1)%float (0, 1)%float))
  = (1, 1, 2, 2)%float.
Proof. reflexivity. Qed.

(** ** Whole inputs *)

Module Run.

(** The first [n] frames of an input, decoded. *)
Fixpoint frames (n : nat) (input : list byte) : list (Z * Z) :=
  match n with
  | O => []
  | S n' =>
      match Frame.unpack_II (firstn 8 input) with
      | Some value => value :: frames n' (skipn 8 input)
      | None => []
      end
  end.

(** The records of an input: its full 8-byte frames decoded in order.  The
    [length input mod 8] bytes after the last full frame belong to none. *)
Definition records_of (input : list byte) : list (Z * Z) :=
  frames (List.length input / 8) input.

End Run.

(** ** Values of binary64 numbers *)

(** The value [m * 2^e] of a positive finite number, as an integer, for
    exponents from [-200] on. *)
Definition sval (m : positive) (e : Z) : Z := Zpos m * 2 ^ (e + 200).

(** * Decoding *)

Section FrameFacts.
Import Frame.

Lemma byte_val_range (b : byte) : 0 <= byte_val b < 256.
Proof.
  unfold byte_val. pose proof (Byte.to_N_bounded b). lia.
Qed.

(** Or-ing in a field shifted past every bit of the low part adds it. *)
Lemma lor_shiftl_add (lo hi n : Z) :
  0 <= n -> 0 <= lo < 2 ^ n ->
  Z.lor lo (Z.shiftl hi n) = lo + hi * 2 ^ n.
Proof.
  intros Hn Hlo.
  pose proof (Z.add_lor_land lo (Z.shiftl hi n)) as Hsum.
  assert (Hdisj : Z.land lo (Z.shiftl hi n) = 0).
  { apply Z.bits_inj'. intros i Hi.
    rewrite Z.land_spec, Z.bits_0.
    destruct (Z.lt_ge_cases i n) as [Hlt | Hge].
    - rewrite Z.shiftl_spec_low by assumption. apply andb_false_r.
    - destruct (Z.eq_dec lo 0) as [-> | Hnz].
      + rewrite Z.bits_0. reflexivity.
      + rewrite (Z.bits_above_log2 lo i); [reflexivity | lia |].
        apply Z.lt_le_trans with n; [| assumption].
        apply Z.log2_lt_pow2; lia. }
  rewrite Hdisj in Hsum.
  rewrite <- (Z.shiftl_mul_pow2 hi n) by assumption. lia.
Qed.

Lemma le_u32_sum (b0 b1 b2 b3 : byte) :
  le_u32 b0 b1 b2 b3 =
  byte_val b0 + 256 * byte_val b1 + 65536 * byte_val b2
  + 16777216 * byte_val b3.
Proof.
  pose proof (byte_val_range b0). pose proof (byte_val_range b1).
  pose proof (byte_val_range b2). pose proof (byte_val_range b3).
  unfold le_u32.
  rewrite (lor_shiftl_add (byte_val b0) (byte_val b1) 8) by lia.
  rewrite (lor_shiftl_add _ (byte_val b2) 16) by lia.
  rewrite (lor_shiftl_add _ (byte_val b3) 24) by lia.
  lia.
Qed.

Lemma le_u32_range (b0 b1 b2 b3 : byte) : Spec.u32 (le_u32 b0 b1 b2 b3).
Proof.
  unfold Spec.u32. rewrite le_u32_sum.
  pose proof (byte_val_range b0). pose proof (byte_val_range b1).
  pose proof (byte_val_range b2). pose proof (byte_val_range b3).
  lia.
Qed.

Lemma unpack_II_length (line : list byte) :
  List.length line = 8%nat -> exists v, unpack_II line = Some v.
Proof.
  intros Hlen.
  do 8 (destruct line as [| ? line]; [discriminate Hlen |]).
  destruct line; [eexists; reflexivity | discriminate Hlen].
Qed.

Lemma unpack_II_ok (line : list byte) (v : Z * Z) :
  unpack_II line = Some v -> Spec.record_ok v.
Proof.
  unfold unpack_II. intros H.
  do 8 (destruct line as [| ? line]; [discriminate H |]).
  destruct line; [| discriminate H].
  injection H as <-. split; apply le_u32_range.
Qed.

Lemma byte_val_of_Z (z : Z) : byte_val (byte_of_Z z) = z mod 256.
Proof.
  unfold byte_of_Z, byte_val.
  pose proof (Z.mod_pos_bound z 256 ltac:(lia)) as Hm.
  destruct (Byte.of_N (Z.to_N (z mod 256))) as [b |] eqn:E.
  - apply Byte.to_of_N in E. rewrite E. lia.
  - pose proof (Byte.to_of_N_option_map (Z.to_N (z mod 256))) as Ho.
    rewrite E in Ho. cbn in Ho.
    destruct (N.leb_spec (Z.to_N (z mod 256)) 255); [discriminate | lia].
Qed.

Lemma le_u32_le_bytes (v : Z) :
  Spec.u32 v ->
  le_u32 (byte_of_Z v) (byte_of_Z (Z.shiftr v 8))
         (byte_of_Z (Z.shiftr v 16)) (byte_of_Z (Z.shiftr v 24)) = v.
Proof.
  unfold Spec.u32. intros Hv.
  rewrite le_u32_sum, !byte_val_of_Z, !Z.shiftr_div_pow2 by lia.
  change (2 ^ 8) with 256. change (2 ^ 16) with 65536.
  change (2 ^ 24) with 16777216. change (2 ^ 32) with 4294967296 in Hv.
  assert (H2 : v / 65536 = v / 256 / 256)
    by (rewrite Z.div_div by lia; reflexivity).
  assert (H3 : v / 16777216 = v / 65536 / 256)
    by (rewrite Z.div_div by lia; reflexivity).
  pose proof (Z.div_mod v 256 ltac:(lia)) as E1.
  pose proof (Z.div_mod (v / 256) 256 ltac:(lia)) as E2.
  pose proof (Z.div_mod (v / 65536) 256 ltac:(lia)) as E3.
  rewrite <- H2 in E2. rewrite <- H3 in E3.
  assert (H4 : 0 <= v / 16777216 < 256).
  { split; [apply Z.div_pos; lia | apply Z.div_lt_upper_bound; lia]. }
  rewrite (Z.mod_small (v / 16777216) 256) by exact H4.
  lia.
Qed.

(** C3.  Every 8-byte frame [(a,b,c,d,e,f,g,h)] decodes, and it decodes to
    [x = a + 256 b + 65536 c + 16777216 d] and
    [y = e + 256 f + 65536 g + 16777216 h]: bytes 0-3 and bytes 4-7 read
    as little-endian integers, each an unsigned 32-bit value. *)
Theorem unpack_II_little_endian (a b c d e f g h : byte) :
  unpack_II [a; b; c; d; e; f; g; h] =
    Some (byte_val a + 256 * byte_val b + 65536 * byte_val c
            + 16777216 * byte_val d,
          byte_val e + 256 * byte_val f + 65536 * byte_val g
            + 16777216 * byte_val h)
  /\ Spec.u32 (le_u32 a b c d) /\ Spec.u32 (le_u32 e f g h)
  /\ (forall v : byte, 0 <= byte_val v <= 255).
Proof.
  split; [| split; [| split]].
  - cbn [unpack_II]. rewrite !le_u32_sum. reflexivity.
  - apply le_u32_range.
  - apply le_u32_range.
  - intros v. pose proof (byte_val_range v). lia.
Qed.

(** C7.  Decoding inverts the little-endian encoding of two unsigned
    32-bit integers: for [0 <= x < 2^32] and [0 <= y < 2^32], packing
    [x] and [y] as two 4-byte little-endian fields gives 8 bytes that
    decode to exactly [(x, y)]. *)
Theorem unpack_pack_roundtrip (x y : Z) :
  0 <= x < 2 ^ 32 -> 0 <= y < 2 ^ 32 ->
  List.length (pack_II x y) = 8%nat /\ unpack_II (pack_II x y) = Some (x, y).
Proof.
  intros Hx Hy. split; [reflexivity |].
  unfold pack_II, le_bytes_u32. cbn [app unpack_II].
  rewrite (le_u32_le_bytes x Hx), (le_u32_le_bytes y Hy). reflexivity.
Qed.

Lemma unpack_pack_roundtrip_witness :
  (0 <= 305419896 < 2 ^ 32 /\ 0 <= 4294967295 < 2 ^ 32)
  /\ List.length (pack_II 305419896 4294967295) = 8%nat
  /\ unpack_II (pack_II 305419896 4294967295) = Some (305419896, 4294967295).
Proof.
  split; [lia |].
  apply (unpack_pack_roundtrip 305419896 4294967295); lia.
Defined.

End FrameFacts.

Example pack_II_bytes :
  Frame.pack_II 305419896 1 = [x78; x56; x34; x12; x01; x00; x00; x00].
Proof. reflexivity. Qed.

(** * Integers as binary64 values

    [float(n)] is exact, and keeps the order, for every integer the script
    converts.  The facts are read off the specification of the primitive
    operations ([of_uint63_spec], [ltb_spec]). *)

Section FloatOfInt.

(** The number of binary digits of a positive integer. *)
Let digits (p : positive) : Z := Zpos (SpecFloat.digits2_pos p).

Lemma digits_pos (p : positive) : 1 <= digits p.
Proof. unfold digits. lia. Qed.

Lemma digits_bounds (p : positive) :
  2 ^ (digits p - 1) <= Zpos p < 2 ^ digits p.
Proof.
  unfold digits. induction p as [p IH | p IH |]; cbn [SpecFloat.digits2_pos].
  - rewrite Pos2Z.inj_succ.
    replace (Z.succ (Zpos (SpecFloat.digits2_pos p)) - 1)
      with (Z.succ (Zpos (SpecFloat.digits2_pos p) - 1)) by lia.
    rewrite !Z.pow_succ_r by lia. lia.
  - rewrite Pos2Z.inj_succ.
    replace (Z.succ (Zpos (SpecFloat.digits2_pos p)) - 1)
      with (Z.succ (Zpos (SpecFloat.digits2_pos p) - 1)) by lia.
    rewrite !Z.pow_succ_r by lia. lia.
  - cbn. lia.
Qed.

Lemma iter_xO_value (k p : positive) :
  Zpos (Pos.iter xO p k) = Zpos p * 2 ^ Zpos k.
Proof.
  induction k as [| k IH] using Pos.peano_ind.
  - cbn. lia.
  - rewrite Pos.iter_succ, Pos2Z.inj_succ, Z.pow_succ_r by lia.
    rewrite Pos2Z.inj_xO, IH. lia.
Qed.

Lemma iter_xO_digits (k p : positive) :
  digits (Pos.iter xO p k) = digits p + Zpos k.
Proof.
  unfold digits. induction k as [| k IH] using Pos.peano_ind.
  - cbn [Pos.iter SpecFloat.digits2_pos]. lia.
  - rewrite Pos.iter_succ. cbn [SpecFloat.digits2_pos].
    rewrite Pos2Z.inj_succ, IH. lia.
Qed.

(** The mantissa and exponent of the binary64 value of a positive
    integer below [2^53]: the integer shifted left until it has 53
    digits. *)
Definition mantissa (p : positive) : positive :=
  match (53 - digits p)%Z with
  | Zpos k => Pos.iter xO p k
  | _ => p
  end.

Definition exponent (p : positive) : Z := digits p - 53.

Lemma mantissa_value (p : positive) :
  digits p <= 53 -> Zpos (mantissa p) = Zpos p * 2 ^ (53 - digits p).
Proof.
  intros Hd. unfold mantissa.
  destruct (53 - digits p) as [| k | k] eqn:E.
  - cbn. lia.
  - apply iter_xO_value.
  - lia.
Qed.

Lemma mantissa_digits (p : positive) :
  digits p <= 53 -> digits (mantissa p) = 53.
Proof.
  intros Hd. unfold mantissa.
  destruct (53 - digits p) as [| k | k] eqn:E.
  - lia.
  - rewrite iter_xO_digits. lia.
  - lia.
Qed.

Lemma binary_round_exact (p : positive) :
  digits p <= 53 ->
  SpecFloat.binary_round prec emax false p 0 =
  S754_finite false (mantissa p) (exponent p).
Proof.
  intros Hd. pose proof (digits_pos p) as Hp.
  pose proof (mantissa_digits p Hd) as Hm.
  unfold SpecFloat.binary_round.
  assert (Hal : SpecFloat.shl_align p 0
                  (SpecFloat.fexp prec emax (Zpos (SpecFloat.digits2_pos p) + 0))
                = (mantissa p, exponent p)).
  { unfold SpecFloat.shl_align, SpecFloat.fexp, SpecFloat.emin, mantissa, exponent.
    fold (digits p). change prec with 53. change emax with 1024.
    rewrite Z.add_0_r, Z.sub_0_r.
    rewrite Z.max_l by lia.
    destruct (digits p - 53) as [| k | k] eqn:E.
    - replace (53 - digits p) with 0 by lia. reflexivity.
    - lia.
    - replace (53 - digits p) with (Zpos k) by lia. reflexivity. }
  rewrite Hal.
  unfold SpecFloat.binary_round_aux.
  assert (Hsh : forall l, SpecFloat.shr_fexp prec emax (Zpos (mantissa p)) (exponent p) l
                = (SpecFloat.shr_record_of_loc (Zpos (mantissa p)) l, exponent p)).
  { intros l. unfold SpecFloat.shr_fexp, SpecFloat.fexp, SpecFloat.emin, SpecFloat.Zdigits2.
    fold (digits (mantissa p)). rewrite Hm.
    change prec with 53. change emax with 1024. unfold exponent.
    rewrite Z.max_l by lia.
    replace (53 + (digits p - 53) - 53 - (digits p - 53)) with 0 by lia.
    reflexivity. }
  rewrite Hsh. cbn [SpecFloat.shr_record_of_loc SpecFloat.shr_m
                    SpecFloat.loc_of_shr_record SpecFloat.round_nearest_even].
  rewrite Hsh. cbn [SpecFloat.shr_record_of_loc SpecFloat.shr_m].
  change prec with 53. change emax with 1024.
  destruct (Z.leb_spec (exponent p) (1024 - 53)) as [_ | Hbad]; [reflexivity |].
  unfold exponent in Hbad. lia.
Qed.

Lemma Prim2SF_float_of_int (n : Z) :
  0 <= n < 2 ^ 53 ->
  Prim2SF (PyNum.float_of_int n) =
  match n with
  | Zpos p => S754_finite false (mantissa p) (exponent p)
  | _ => S754_zero false
  end.
Proof.
  intros Hn. unfold PyNum.float_of_int.
  rewrite of_uint63_spec, Uint63.of_Z_spec.
  rewrite Z.mod_small.
  2:{ split; [lia |]. apply Z.lt_trans with (2 ^ 53); [lia | reflexivity]. }
  destruct n as [| p | p]; [reflexivity | | lia].
  unfold SpecFloat.binary_normalize. apply binary_round_exact.
  pose proof (digits_bounds p) as Hb.
  destruct (Z.le_gt_cases (digits p) 53) as [Hle | Hgt]; [exact Hle |].
  assert (2 ^ 53 <= 2 ^ (digits p - 1)) by (apply Z.pow_le_mono_r; lia).
  lia.
Qed.

Lemma digits_small (p : positive) : Zpos p < 2 ^ 53 -> digits p <= 53.
Proof.
  intros Hlt. pose proof (digits_bounds p) as Hb.
  destruct (Z.le_gt_cases (digits p) 53) as [Hle | Hgt]; [exact Hle |].
  assert (2 ^ 53 <= 2 ^ (digits p - 1)) by (apply Z.pow_le_mono_r; lia).
  lia.
Qed.

Lemma SFltb_of_pos (p q : positive) :
  Zpos p < 2 ^ 53 -> Zpos q < 2 ^ 53 ->
  SFltb (S754_finite false (mantissa p) (exponent p))
        (S754_finite false (mantissa q) (exponent q)) = (Zpos p <? Zpos q).
Proof.
  intros Hp Hq.
  pose proof (digits_small p Hp) as Hdp. pose proof (digits_small q Hq) as Hdq.
  pose proof (digits_bounds p) as Bp. pose proof (digits_bounds q) as Bq.
  pose proof (digits_pos p) as Pp. pose proof (digits_pos q) as Pq.
  unfold SFltb, SFcompare, exponent.
  destruct (Z.compare_spec (digits p - 53) (digits q - 53)) as [He | Hl | Hg].
  - assert (Hd : digits p = digits q) by lia.
    pose proof (mantissa_value p Hdp) as Vp.
    pose proof (mantissa_value q Hdq) as Vq.
    rewrite Hd in Vp.
    assert (Hpow : 0 < 2 ^ (53 - digits q)) by (apply Z.pow_pos_nonneg; lia).
    change (Pos.compare_cont Eq (mantissa p) (mantissa q))
      with (Pos.compare (mantissa p) (mantissa q)).
    destruct (Pos.compare_spec (mantissa p) (mantissa q)) as [E | L | G];
      symmetry.
    + apply Z.ltb_ge. rewrite E in Vp. nia.
    + apply Z.ltb_lt. apply Pos2Z.pos_lt_pos in L. nia.
    + apply Z.ltb_ge. apply Pos2Z.pos_lt_pos in G. nia.
  - symmetry. apply Z.ltb_lt.
    assert (2 ^ digits p <= 2 ^ (digits q - 1)) by (apply Z.pow_le_mono_r; lia).
    lia.
  - symmetry. apply Z.ltb_ge.
    assert (2 ^ digits q <= 2 ^ (digits p - 1)) by (apply Z.pow_le_mono_r; lia).
    lia.
Qed.

(** On integers below [2^53] the conversion to [float] keeps the order. *)
Lemma float_of_int_ltb (a b : Z) :
  0 <= a < 2 ^ 53 -> 0 <= b < 2 ^ 53 ->
  (PyNum.float_of_int a <? PyNum.float_of_int b)%float = (a <? b).
Proof.
  intros Ha Hb.
  rewrite ltb_spec, (Prim2SF_float_of_int a Ha), (Prim2SF_float_of_int b Hb).
  destruct a as [| p | p], b as [| q | q]; try lia; try reflexivity.
  apply SFltb_of_pos; lia.
Qed.

End FloatOfInt.


(** * The update callback *)

Section UpdaterFacts.
Import Updater.

Local Abbreviation F := PyNum.float_of_int.

Lemma animate_unfold (data : Z * Z) (g : globals) :
  let xn := F (fst data) in
  let yn := F (snd data) in
  let xmax := Spec.widen_max (x_max g) xn in
  let xmin := Spec.widen_min (x_min g) xn in
  let ymax := Spec.widen_max (y_max g) yn in
  let ymin := Spec.widen_min (y_min g) yn in
  animate data g =
  {| x_max := xmax; x_min := xmin; y_max := ymax; y_min := ymin;
     x := x g ++ [xn]; y := y g ++ [yn];
     ax_xlim := Spec.padded xmin xmax;
     ax_ylim := Spec.padded ymin ymax;
     line_data := (x g ++ [xn], y g ++ [yn]) |}.
Proof.
  cbv zeta. unfold animate, animate_body, Spec.widen_max, Spec.widen_min, Spec.padded.
  generalize (F (fst data)) as xn. generalize (F (snd data)) as yn.
  intros yn xn. destruct g as [xmax xmin ymax ymin xs ys xl yl ld].
  cbv [fold_left on_globals set_xlim_stmt set_ylim_stmt fst snd x_new y_new
       x_max x_min y_max y_min x y ax_xlim ax_ylim line_data].
  destruct (xmax <? xn)%float;
    cbv [set_x_max x_max x_min y_max y_min x y ax_xlim ax_ylim line_data];
    destruct (xn <? xmin)%float;
    cbv [set_x_min x_max x_min y_max y_min x y ax_xlim ax_ylim line_data];
    destruct (ymax <? yn)%float;
    cbv [set_y_max x_max x_min y_max y_min x y ax_xlim ax_ylim line_data];
    destruct (yn <? ymin)%float; reflexivity.
Qed.

Lemma process_cons (data : Z * Z) (rest : list (Z * Z)) (g : globals) :
  process (data :: rest) g = process rest (animate data g).
Proof. reflexivity. Qed.

Lemma process_app (r1 r2 : list (Z * Z)) (g : globals) :
  process (r1 ++ r2) g = process r2 (process r1 g).
Proof. unfold process. apply fold_left_app. Qed.

(** Widening a bound that holds an integer by an integer. *)
Lemma widen_max_int (m v : Z) :
  0 <= m < 2 ^ 53 -> 0 <= v < 2 ^ 53 ->
  Spec.widen_max (F m) (F v) = F (Z.max m v).
Proof.
  intros Hm Hv. unfold Spec.widen_max.
  rewrite (float_of_int_ltb m v Hm Hv).
  destruct (Z.ltb_spec m v).
  - rewrite Z.max_r by lia. reflexivity.
  - rewrite Z.max_l by lia. reflexivity.
Qed.

Lemma widen_min_int (m v : Z) :
  0 <= m < 2 ^ 53 -> 0 <= v < 2 ^ 53 ->
  Spec.widen_min (F m) (F v) = F (Z.min m v).
Proof.
  intros Hm Hv. unfold Spec.widen_min.
  rewrite (float_of_int_ltb v m Hv Hm).
  destruct (Z.ltb_spec v m).
  - rewrite Z.min_r by lia. reflexivity.
  - rewrite Z.min_l by lia. reflexivity.
Qed.

Lemma u32_small (v : Z) : Spec.u32 v -> 0 <= v < 2 ^ 53.
Proof. unfold Spec.u32. intros H. split; [lia |]. apply Z.lt_trans with (2 ^ 32); [lia | reflexivity]. Qed.

(** [maximum] and [minimum] are the greatest and least element. *)
Lemma maximum_spec (s : Z) (vs : list Z) :
  In (Spec.maximum s vs) (s :: vs)
  /\ Forall (fun v => v <= Spec.maximum s vs) (s :: vs).
Proof.
  unfold Spec.maximum. revert s.
  induction vs as [| v vs IH]; intros s; cbn [fold_left].
  - split; [left; reflexivity | constructor; [lia | constructor]].
  - destruct (IH (Z.max s v)) as [Hin Hall]. split.
    + destruct Hin as [Heq | Hin].
      * rewrite <- Heq. destruct (Z.max_spec s v) as [[_ ->] | [_ ->]];
          [right; left | left]; reflexivity.
      * right; right; exact Hin.
    + inversion Hall as [| ? ? Hhd Htl]; subst.
      constructor; [lia |]. constructor; [lia | exact Htl].
Qed.

Lemma minimum_spec (s : Z) (vs : list Z) :
  In (Spec.minimum s vs) (s :: vs)
  /\ Forall (fun v => Spec.minimum s vs <= v) (s :: vs).
Proof.
  unfold Spec.minimum. revert s.
  induction vs as [| v vs IH]; intros s; cbn [fold_left].
  - split; [left; reflexivity | constructor; [lia | constructor]].
  - destruct (IH (Z.min s v)) as [Hin Hall]. split.
    + destruct Hin as [Heq | Hin].
      * rewrite <- Heq. destruct (Z.min_spec s v) as [[_ ->] | [_ ->]];
          [left | right; left]; reflexivity.
      * right; right; exact Hin.
    + inversion Hall as [| ? ? Hhd Htl]; subst.
      constructor; [lia |]. constructor; [lia | exact Htl].
Qed.

(** The bounds hold integers as long as the records are 32-bit values. *)
Lemma process_bounds (records : list (Z * Z)) :
  Forall Spec.record_ok records ->
  forall (g : globals) (xM xm yM ym : Z),
    0 <= xM < 2 ^ 53 -> 0 <= xm < 2 ^ 53 ->
    0 <= yM < 2 ^ 53 -> 0 <= ym < 2 ^ 53 ->
    x_max g = F xM -> x_min g = F xm -> y_max g = F yM -> y_min g = F ym ->
    x_max (process records g) = F (Spec.maximum xM (map fst records))
    /\ x_min (process records g) = F (Spec.minimum xm (map fst records))
    /\ y_max (process records g) = F (Spec.maximum yM (map snd records))
    /\ y_min (process records g) = F (Spec.minimum ym (map snd records)).
Proof.
  induction 1 as [| data rest [Hx Hy] _ IH];
    intros g xM xm yM ym RxM Rxm RyM Rym ExM Exm EyM Eym.
  - cbn. auto.
  - apply u32_small in Hx, Hy.
    rewrite process_cons. cbn [map Spec.maximum Spec.minimum fold_left].
    unfold Spec.maximum, Spec.minimum in *. cbn [fold_left].
    apply IH; try lia; rewrite animate_unfold; cbn [x_max x_min y_max y_min].
    + rewrite ExM. apply widen_max_int; assumption.
    + rewrite Exm. apply widen_min_int; assumption.
    + rewrite EyM. apply widen_max_int; assumption.
    + rewrite Eym. apply widen_min_int; assumption.
Qed.
Lemma init_bounds (xlim ylim : float * float) :
  x_max (init xlim ylim) = F 0 /\ x_min (init xlim ylim) = F 999999999
  /\ y_max (init xlim ylim) = F 0 /\ y_min (init xlim ylim) = F 999999999.
Proof. repeat split. Qed.

Lemma maximum_range (s : Z) (vs : list Z) :
  0 <= s < 2 ^ 53 -> Forall Spec.u32 vs ->
  s <= Spec.maximum s vs < 2 ^ 53.
Proof.
  intros Hs Hvs. destruct (maximum_spec s vs) as [Hin Hall].
  inversion Hall as [| ? ? Hhd _]; subst. split; [exact Hhd |].
  destruct Hin as [<- | Hin]; [lia |].
  rewrite Forall_forall in Hvs. apply u32_small, Hvs, Hin.
Qed.

Lemma minimum_range (s : Z) (vs : list Z) :
  0 <= s < 2 ^ 53 -> Forall Spec.u32 vs ->
  0 <= Spec.minimum s vs <= s.
Proof.
  intros Hs Hvs. destruct (minimum_spec s vs) as [Hin Hall].
  inversion Hall as [| ? ? Hhd _]; subst. split; [| exact Hhd].
  destruct Hin as [<- | Hin]; [lia |].
  rewrite Forall_forall in Hvs. apply u32_small, Hvs, Hin.
Qed.

Lemma records_fst (records : list (Z * Z)) :
  Forall Spec.record_ok records -> Forall Spec.u32 (map fst records).
Proof.
  induction 1 as [| d r [Hx _] _ IH]; cbn [map]; constructor; assumption.
Qed.

Lemma records_snd (records : list (Z * Z)) :
  Forall Spec.record_ok records -> Forall Spec.u32 (map snd records).
Proof.
  induction 1 as [| d r [_ Hy] _ IH]; cbn [map]; constructor; assumption.
Qed.

Lemma Forall_firstn_keep {A : Type} (P : A -> Prop) (n : nat) (l : list A) :
  Forall P l -> Forall P (firstn n l).
Proof.
  intros H. revert n. induction H as [| a l Ha _ IH]; intros [| n];
    cbn [firstn]; constructor; auto.
Qed.

(** C2.  Feed any finite sequence of records to the callback.  After the
    first [n] of them, [x_max] is the greatest of the initial 0 and every
    [x] seen so far, and [x_min] is the least of the initial 999999999 and
    every [x] seen so far; [y_max] and [y_min] likewise.  Hence [x_max] is
    never below 0 and [x_min] never above 999999999. *)
Theorem bounds_running_extrema (records : list (Z * Z)) (n : nat)
        (xlim ylim : float * float) :
  Forall Spec.record_ok records ->
  let seen := firstn n records in
  let g := process seen (init xlim ylim) in
  let xs := map fst seen in
  let ys := map snd seen in
  x_max g = F (Spec.maximum 0 xs)
  /\ x_min g = F (Spec.minimum 999999999 xs)
  /\ y_max g = F (Spec.maximum 0 ys)
  /\ y_min g = F (Spec.minimum 999999999 ys)
  /\ (0 <= Spec.maximum 0 xs /\ Spec.minimum 999999999 xs <= 999999999)
  /\ (0 <= Spec.maximum 0 ys /\ Spec.minimum 999999999 ys <= 999999999)
  /\ (x_max g <? F 0)%float = false
  /\ (F 999999999 <? x_min g)%float = false
  /\ (y_max g <? F 0)%float = false
  /\ (F 999999999 <? y_min g)%float = false.
Proof.
  intros Hall seen g xs ys.
  assert (Hok : Forall Spec.record_ok seen)
    by (apply Forall_firstn_keep; exact Hall).
  assert (R0 : 0 <= 0 < 2 ^ 53) by (split; [lia | reflexivity]).
  assert (R9 : 0 <= 999999999 < 2 ^ 53) by (split; [lia | reflexivity]).
  destruct (init_bounds xlim ylim) as (I1 & I2 & I3 & I4).
  destruct (process_bounds seen Hok (init xlim ylim) 0 999999999 0 999999999
              R0 R9 R0 R9 I1 I2 I3 I4) as (B1 & B2 & B3 & B4).
  pose proof (maximum_range 0 xs R0 (records_fst seen Hok)) as MX.
  pose proof (minimum_range 999999999 xs R9 (records_fst seen Hok)) as mX.
  pose proof (maximum_range 0 ys R0 (records_snd seen Hok)) as MY.
  pose proof (minimum_range 999999999 ys R9 (records_snd seen Hok)) as mY.
  assert (R9' : 999999999 < 2 ^ 53) by reflexivity.
  subst g. rewrite B1, B2, B3, B4. fold xs ys.
  repeat split; try lia.
  - rewrite float_of_int_ltb by lia. apply Z.ltb_ge. lia.
  - rewrite float_of_int_ltb by lia. apply Z.ltb_ge. lia.
  - rewrite float_of_int_ltb by lia. apply Z.ltb_ge. lia.
  - rewrite float_of_int_ltb by lia. apply Z.ltb_ge. lia.
Qed.

Lemma bounds_running_extrema_witness :
  Forall Spec.record_ok [(7, 3000000000); (2, 5); (9, 1)]
  /\ x_max (process [(7, 3000000000); (2, 5)] (init (0, 1)%float (0, 1)%float))
     = F 7
  /\ x_min (process [(7, 3000000000); (2, 5)] (init (0, 1)%float (0, 1)%float))
     = F 2
  /\ y_max (process [(7, 3000000000); (2, 5)] (init (0, 1)%float (0, 1)%float))
     = F 3000000000
  /\ y_min (process [(7, 3000000000); (2, 5)] (init (0, 1)%float (0, 1)%float))
     = F 5.
Proof.
  assert (Hok : Forall Spec.record_ok [(7, 3000000000); (2, 5); (9, 1)]).
  { repeat constructor; cbn; lia. }
  split; [exact Hok |].
  destruct (bounds_running_extrema [(7, 3000000000); (2, 5); (9, 1)] 2
              (0, 1)%float (0, 1)%float Hok)
    as (H1 & H2 & H3 & H4 & _).
  repeat split; assumption.
Defined.

#[local] Set Warnings "-inexact-float".

(** C4.  For every record, the axis limits that [animate] sets are
    [x_min * 0.99 - 1], [x_max * 1.01 + 1], [y_min * 0.99 - 1] and
    [y_max * 1.01 + 1], computed from the bounds after the record has been
    folded into them. *)
Theorem animate_display_limits (data : Z * Z) (g : globals) :
  let g' := animate data g in
  (x_max g' = Spec.widen_max (x_max g) (F (fst data))
   /\ x_min g' = Spec.widen_min (x_min g) (F (fst data))
   /\ y_max g' = Spec.widen_max (y_max g) (F (snd data))
   /\ y_min g' = Spec.widen_min (y_min g) (F (snd data)))
  /\ ax_xlim g' = ((x_min g' * 0.99 - 1)%float, (x_max g' * 1.01 + 1)%float)
  /\ ax_ylim g' = ((y_min g' * 0.99 - 1)%float, (y_max g' * 1.01 + 1)%float).
Proof.
  cbv zeta. rewrite animate_unfold.
  cbn [x_max x_min y_max y_min ax_xlim ax_ylim]. unfold Spec.padded.
  repeat split.
Qed.

#[local] Set Warnings "inexact-float".

Lemma process_series (records : list (Z * Z)) (g : globals) :
  x (process records g) = x g ++ map (fun d => F (fst d)) records
  /\ y (process records g) = y g ++ map (fun d => F (snd d)) records.
Proof.
  revert g. induction records as [| data rest IH]; intros g.
  - cbn. rewrite !app_nil_r. auto.
  - rewrite process_cons. destruct (IH (animate data g)) as [Hx Hy].
    rewrite Hx, Hy, animate_unfold. cbn [x y map].
    rewrite <- !app_assoc. auto.
Qed.

(** C6.  Each update appends exactly one element to [x] and one to [y],
    after the elements already there; so after any sequence of records
    the two lists have the same length, the number of records, and
    position [i] of each holds the value from the [i]-th record. *)
Theorem series_append_only (records : list (Z * Z)) (data : Z * Z)
        (g : globals) (xlim ylim : float * float) (i : nat) :
  (x (animate data g) = x g ++ [F (fst data)]
   /\ y (animate data g) = y g ++ [F (snd data)])
  /\ (x (process records g) = x g ++ map (fun d => F (fst d)) records
      /\ y (process records g) = y g ++ map (fun d => F (snd d)) records)
  /\ (List.length (x (process records (init xlim ylim))) = List.length records
      /\ List.length (y (process records (init xlim ylim))) = List.length records)
  /\ (nth_error (x (process records (init xlim ylim))) i
        = option_map (fun d => F (fst d)) (nth_error records i)
      /\ nth_error (y (process records (init xlim ylim))) i
        = option_map (fun d => F (snd d)) (nth_error records i)).
Proof.
  destruct (process_series records g) as [Hx Hy].
  destruct (process_series records (init xlim ylim)) as [Hx0 Hy0].
  cbn [init x y app] in Hx0, Hy0.
  split; [| split; [| split]].
  - rewrite animate_unfold. cbn [x y]. auto.
  - auto.
  - rewrite Hx0, Hy0, !length_map. auto.
  - rewrite Hx0, Hy0, !nth_error_map. auto.
Qed.

(** C9.  Deriving the display limits (lines 28-29) leaves the bounds and
    the series as they are, gives limits that are a function of the four
    bounds alone, and gives the same limits when evaluated again. *)
Theorem display_limits_pure (s : locals * globals) :
  let s1 := set_ylim_stmt (set_xlim_stmt s) in
  Spec.bounds (snd s1) = Spec.bounds (snd s)
  /\ (x (snd s1) = x (snd s) /\ y (snd s1) = y (snd s))
  /\ Spec.limits (snd s1) = Spec.display_limits (Spec.bounds (snd s))
  /\ set_ylim_stmt (set_xlim_stmt s1) = s1.
Proof.
  destruct s as [l g]. repeat split.
Qed.

Lemma float_of_int_neq (a b : Z) :
  0 <= a < 2 ^ 53 -> 0 <= b < 2 ^ 53 -> a < b -> F a <> F b.
Proof.
  intros Ha Hb Hlt Heq.
  pose proof (float_of_int_ltb a b Ha Hb) as H1.
  pose proof (float_of_int_ltb b b Hb Hb) as H2.
  rewrite Heq, H2 in H1.
  rewrite Z.ltb_irrefl in H1. symmetry in H1. apply Z.ltb_ge in H1. lia.
Qed.

(** C10.  The initial lower bound 999999999 is below the largest 32-bit
    value 4294967295.  The frame of eight [0xff] bytes is a valid input
    that decodes to [(4294967295, 4294967295)]; after it has been read
    and processed, [x_min] and [y_min] are still 999999999, which is not
    the value that was observed. *)
Theorem sentinel_not_upper_bound :
  999999999 < 4294967295
  /\ Spec.u32 4294967295
  /\ let frame := [xff; xff; xff; xff; xff; xff; xff; xff] in
     Frame.unpack_II frame = Some (4294967295, 4294967295)
     /\ forall xlim ylim : float * float,
          let g := snd (Main.animation 1 1 (Reader.start frame) (init xlim ylim)) in
          g = animate (4294967295, 4294967295) (init xlim ylim)
          /\ x g = [F 4294967295] /\ y g = [F 4294967295]
          /\ x_min g = F 999999999 /\ y_min g = F 999999999
          /\ x_min g <> F 4294967295 /\ y_min g <> F 4294967295.
Proof.
  assert (R9 : 0 <= 999999999 < 2 ^ 53) by (split; [lia | reflexivity]).
  assert (RM : 0 <= 4294967295 < 2 ^ 53) by (split; [lia | reflexivity]).
  split; [lia |]. split; [unfold Spec.u32; lia |].
  cbv zeta. split; [reflexivity |].
  intros xlim ylim.
  assert (Hrun : snd (Main.animation 1 1
                        (Reader.start [xff; xff; xff; xff; xff; xff; xff; xff])
                        (init xlim ylim))
                 = animate (4294967295, 4294967295) (init xlim ylim))
    by reflexivity.
  rewrite Hrun, animate_unfold.
  cbn [x y x_min y_min init fst snd app].
  assert (Hmin : Spec.widen_min (F 999999999) (F 4294967295) = F 999999999).
  { rewrite widen_min_int by assumption. reflexivity. }
  rewrite Hmin.
  repeat split; apply float_of_int_neq; assumption || lia.
Qed.

(** A guarded assignment to a bound, as an unconditional one. *)
Lemma guarded_set_x_max (c : bool) (v : float) (g : globals) :
  (if c then set_x_max v g else g) = set_x_max (if c then v else x_max g) g.
Proof. destruct g, c; reflexivity. Qed.

Lemma guarded_set_x_min (c : bool) (v : float) (g : globals) :
  (if c then set_x_min v g else g) = set_x_min (if c then v else x_min g) g.
Proof. destruct g, c; reflexivity. Qed.

Lemma guarded_set_y_max (c : bool) (v : float) (g : globals) :
  (if c then set_y_max v g else g) = set_y_max (if c then v else y_max g) g.
Proof. destruct g, c; reflexivity. Qed.

Lemma guarded_set_y_min (c : bool) (v : float) (g : globals) :
  (if c then set_y_min v g else g) = set_y_min (if c then v else y_min g) g.
Proof. destruct g, c; reflexivity. Qed.

Lemma after_statements_series (k : nat) (data : Z * Z) (g : globals) :
  (x (Spec.after_statements k data g) = x g
   \/ x (Spec.after_statements k data g) = x g ++ [F (fst data)])
  /\ (y (Spec.after_statements k data g) = y g
      \/ y (Spec.after_statements k data g) = y g ++ [F (snd data)]).
Proof.
  unfold Spec.after_statements, animate_body.
  generalize (F (fst data)) as xn. generalize (F (snd data)) as yn.
  intros yn xn.
  do 12 (destruct k as [| k];
         [cbv [firstn fold_left on_globals set_xlim_stmt set_ylim_stmt
               fst snd x_new y_new];
          rewrite ?guarded_set_x_max, ?guarded_set_x_min,
                  ?guarded_set_y_max, ?guarded_set_y_min;
          cbn [set_x_max set_x_min set_y_max set_y_min set_xlim set_ylim
               x_append y_append set_data x y];
          auto |]).
  cbn [firstn]. rewrite firstn_nil.
  cbv [fold_left on_globals set_xlim_stmt set_ylim_stmt
       fst snd x_new y_new].
  rewrite ?guarded_set_x_max, ?guarded_set_x_min,
          ?guarded_set_y_max, ?guarded_set_y_min.
  cbn [set_x_max set_x_min set_y_max set_y_min set_xlim set_ylim
       x_append y_append set_data x y].
  auto.
Qed.

Lemma exec_raised (e : exn) (body : list stmt) :
  forall (k : nat) (s : locals * globals),
    (k < List.length body)%nat ->
    exec body (Some (k, e)) s
    = inr (e, fold_left (fun s (c : stmt) => c s) (firstn k body) s).
Proof.
  induction body as [| c rest IH]; intros k s Hk; cbn [List.length] in Hk.
  - lia.
  - destruct k as [| k]; cbn [exec firstn fold_left]; [reflexivity |].
    apply IH. lia.
Qed.

Lemma exec_none (body : list stmt) (s : locals * globals) :
  exec body None s = inl (fold_left (fun s (c : stmt) => c s) body s).
Proof.
  revert s. induction body as [| c rest IH]; intros s; cbn [exec fold_left];
    [reflexivity | apply IH].
Qed.

Lemma animate_try_none (data : Z * Z) (g : globals) :
  animate_try None data g = Returned (animate data g).
Proof. unfold animate_try, animate. rewrite exec_none. reflexivity. Qed.

(** C5.  A [KeyboardInterrupt] that arrives anywhere inside the [try:] of
    the callback, when [k] of its statements have run ([k] from 0, before
    the first, to 11, at the closing [return line,]), ends the process with
    exit status 0.  The globals are as the [k] statements left them:
    nothing is undone, and [x] and [y] are what they were, with the new
    value appended if its [append] had already run; at the [return] the
    whole update is in place.  [KeyboardInterrupt] is the only exception
    the callback handles: any other one propagates. *)
Theorem animate_interrupt_exits_zero (k : nat) (data : Z * Z) (g : globals) :
  (k <= 11)%nat ->
  animate_try (Some (k, KeyboardInterrupt)) data g
    = Exited 0 (Spec.after_statements k data g)
  /\ animate_try (Some (11%nat, KeyboardInterrupt)) data g
     = Exited 0 (animate data g)
  /\ (x (Spec.after_statements k data g) = x g
      \/ x (Spec.after_statements k data g) = x g ++ [F (fst data)])
  /\ (y (Spec.after_statements k data g) = y g
      \/ y (Spec.after_statements k data g) = y g ++ [F (snd data)])
  /\ (forall name : string,
        animate_try (Some (k, OtherException name)) data g
        = Propagated (OtherException name) (Spec.after_statements k data g))
  /\ (forall (e : exn) (g' : globals),
        (exists status g'', handle e g' = Exited status g'')
        <-> e = KeyboardInterrupt).
Proof.
  intros Hk.
  assert (Hlen : (k < List.length (animate_body data))%nat) by (cbn; lia).
  destruct (after_statements_series k data g) as [Hx Hy].
  split; [| split; [| split; [exact Hx | split; [exact Hy | split]]]].
  - unfold animate_try. rewrite exec_raised by exact Hlen. reflexivity.
  - unfold animate_try. rewrite exec_raised by (cbn; lia). reflexivity.
  - intros name. unfold animate_try. rewrite exec_raised by exact Hlen.
    reflexivity.
  - intros e g'. split.
    + intros (status & g'' & H). destruct e; [reflexivity | discriminate H].
    + intros ->. exists 0, g'. reflexivity.
Qed.

Lemma animate_interrupt_exits_zero_witness :
  (9 <= 11)%nat
  /\ exists g',
      animate_try (Some (9%nat, KeyboardInterrupt)) (1, 2)
                  (init (0, 1)%float (0, 1)%float) = Exited 0 g'
      /\ x g' = [F 1] /\ y g' = [].
Proof.
  assert (Hk : (9 <= 11)%nat) by lia.
  split; [exact Hk |].
  exists (Spec.after_statements 9 (1, 2) (init (0, 1)%float (0, 1)%float)).
  split.
  - exact (proj1 (animate_interrupt_exits_zero 9 (1, 2)
                    (init (0, 1)%float (0, 1)%float) Hk)).
  - split; vm_compute; reflexivity.
Defined.

End UpdaterFacts.

(** * The data generator *)

Section ReaderFacts.
Import Reader.

(** One pass when fewer than 8 bytes are left: the read returns them all,
    nothing is decoded, printed or yielded, and the pass ends. *)
Lemma data_gen_body_short (w : io) :
  (List.length (stdin w) < 8)%nat ->
  data_gen_body w
  = (Continue, {| stdin := []; trace := trace w ++ [Read (stdin w)] |}).
Proof.
  intros Hlen. unfold data_gen_body, fd_read, log. cbn [stdin trace].
  rewrite (firstn_all2 (n := 8) (stdin w)) by lia.
  rewrite (skipn_all2 (n := 8) (stdin w)) by lia.
  destruct (Nat.eqb_spec (List.length (stdin w)) 8) as [E | _]; [lia |].
  reflexivity.
Qed.

(** One pass when at least 8 bytes are left. *)
Lemma data_gen_body_full (w : io) :
  (8 <= List.length (stdin w))%nat ->
  exists value,
    Frame.unpack_II (firstn 8 (stdin w)) = Some value
    /\ data_gen_body w
       = (Suspend value,
          {| stdin := skipn 8 (stdin w);
             trace := trace w ++ [Read (firstn 8 (stdin w));
                                  Print (Spec.line_of value);
                                  Yield value] |}).
Proof.
  intros Hlen.
  pose proof (firstn_length_le (stdin w) Hlen) as H8.
  destruct (unpack_II_length _ H8) as [value Hv].
  exists value. split; [exact Hv |].
  unfold data_gen_body, fd_read, print, log. cbn [stdin trace].
  rewrite H8, Hv. cbn [Nat.eqb]. unfold Spec.line_of.
  rewrite <- !app_assoc. reflexivity.
Qed.

Lemma data_gen_unfold (fuel : nat) (w : io) :
  data_gen (S fuel) w =
  match data_gen_body w with
  | (Continue, w') => data_gen fuel w'
  | (Suspend value, w') => Yielded value w'
  | (Raise, w') => Raised w'
  end.
Proof. reflexivity. Qed.

(** The generator function has no way out of its loop. *)
Lemma data_gen_no_stop (fuel : nat) :
  forall w w' : io, data_gen fuel w <> StopIteration w'.
Proof.
  induction fuel as [| fuel IH]; intros w w'.
  - discriminate.
  - rewrite data_gen_unfold.
    destruct (data_gen_body w) as [[| value |] w1];
      [apply IH | discriminate | discriminate].
Qed.

Lemma data_gen_closed (fuel : nat) (t : list event) :
  data_gen fuel {| stdin := []; trace := t |}
  = Spinning {| stdin := []; trace := t ++ repeat (Read []) fuel |}.
Proof.
  revert t. induction fuel as [| fuel IH]; intros t.
  - cbn. rewrite app_nil_r. reflexivity.
  - rewrite data_gen_unfold, data_gen_body_short by (cbn; lia).
    cbn [stdin trace]. rewrite IH, <- app_assoc. reflexivity.
Qed.

Lemma data_gen_short (fuel : nat) (w : io) :
  (List.length (stdin w) < 8)%nat ->
  data_gen fuel w
  = Spinning {| stdin := match fuel with O => stdin w | S _ => [] end;
                trace := trace w ++ Spec.idle_reads fuel (stdin w) |}.
Proof.
  intros Hlen. destruct fuel as [| fuel].
  - cbn. rewrite app_nil_r. destruct w; reflexivity.
  - rewrite data_gen_unfold, data_gen_body_short by exact Hlen.
    rewrite data_gen_closed, <- app_assoc. reflexivity.
Qed.

Lemma yielded_app (t1 t2 : list event) :
  yielded (t1 ++ t2) = yielded t1 ++ yielded t2.
Proof. apply flat_map_app. Qed.

Lemma printed_app (t1 t2 : list event) :
  printed (t1 ++ t2) = printed t1 ++ printed t2.
Proof. apply flat_map_app. Qed.

Lemma idle_reads_silent (fuel : nat) (rest : list byte) :
  yielded (Spec.idle_reads fuel rest) = [] /\ printed (Spec.idle_reads fuel rest) = [].
Proof.
  destruct fuel as [| fuel]; [split; reflexivity |].
  cbn. induction fuel as [| fuel IH]; [split; reflexivity | exact IH].
Qed.

Lemma animation_short (n fuel : nat) (w : io) (g : Updater.globals) :
  (List.length (stdin w) < 8)%nat ->
  snd (Main.animation n fuel w g) = g.
Proof.
  intros Hlen. destruct n as [| n]; [reflexivity |].
  cbn [Main.animation]. rewrite data_gen_short by exact Hlen. reflexivity.
Qed.

(** C1, as the code has it.  When a read returns fewer than 8 bytes
    (none, when the input has ended), the generator emits no record and
    prints nothing for them, and it does not end: it reads again, gets
    nothing, and stays in its loop however long it is run, so the
    callback is not called again and the globals stay as they are.  On an
    empty input no record is processed and [x], [y] stay empty.  No input
    makes the generator signal its end. *)
Theorem data_gen_short_read_spins (fuel : nat) (w : io) :
  (List.length (stdin w) < 8)%nat ->
  (exists w',
      data_gen fuel w = Spinning w'
      /\ trace w' = trace w ++ Spec.idle_reads fuel (stdin w)
      /\ yielded (trace w') = yielded (trace w)
      /\ printed (trace w') = printed (trace w))
  /\ (forall (n : nat) (g : Updater.globals),
        snd (Main.animation n fuel w g) = g)
  /\ (forall (n : nat) (xlim ylim : float * float),
        let g := snd (Main.animation n fuel (start []) (Updater.init xlim ylim)) in
        Updater.x g = [] /\ Updater.y g = []
        /\ Updater.ax_xlim g = xlim /\ Updater.ax_ylim g = ylim)
  /\ (forall (fuel' : nat) (w0 w1 : io), data_gen fuel' w0 <> StopIteration w1).
Proof.
  intros Hlen. split; [| split; [| split]].
  - eexists. split; [apply data_gen_short; exact Hlen |].
    cbn [trace]. destruct (idle_reads_silent fuel (stdin w)) as [Hy Hp].
    rewrite yielded_app, printed_app, Hy, Hp, !app_nil_r. auto.
  - intros n g. apply animation_short. exact Hlen.
  - intros n xlim ylim. cbv zeta.
    rewrite animation_short by (cbn; lia). repeat split.
  - intros fuel' w0 w1. apply data_gen_no_stop.
Qed.

Lemma data_gen_short_read_spins_witness :
  (List.length (stdin (start [x01; x02; x03])) < 8)%nat
  /\ exists w',
      data_gen 3 (start [x01; x02; x03]) = Spinning w'
      /\ trace w' = [Read [x01; x02; x03]; Read []; Read []].
Proof.
  assert (Hlen : (List.length (stdin (start [x01; x02; x03])) < 8)%nat)
    by (cbn; lia).
  split; [exact Hlen |].
  destruct (data_gen_short_read_spins 3 (start [x01; x02; x03]) Hlen)
    as [(w' & Hrun & Htrace & _) _].
  exists w'. split; [exact Hrun | exact Htrace].
Defined.

(** C1, counterexample.  On the empty input the generator never signals
    the end of the sequence: however long it runs, it is still in its loop,
    having read nothing each time. *)
Lemma data_gen_never_ends_on_empty_input :
  ~ (exists (fuel : nat) (w : io),
        data_gen fuel (start []) = StopIteration w)
  /\ (forall fuel : nat,
        data_gen fuel (start [])
        = Spinning {| stdin := []; trace := repeat (Read []) fuel |}).
Proof.
  split.
  - intros (fuel & w & H). exact (data_gen_no_stop fuel (start []) w H).
  - intros fuel. exact (data_gen_closed fuel []).
Qed.

(** ** Order of [print] and [yield] *)

Lemma snoc_eq_split {A : Type} (t pre post : list A) (a b : A) :
  t ++ [b] = pre ++ a :: post ->
  (post = [] /\ t = pre /\ b = a)
  \/ (exists post', post = post' ++ [b] /\ t = pre ++ a :: post').
Proof.
  intros H. destruct post as [| c post0] using rev_ind.
  - left. apply app_inj_tail in H. destruct H as [-> ->]. auto.
  - right. clear IHpost0. exists post0.
    change (pre ++ a :: post0 ++ [c]) with (pre ++ (a :: post0) ++ [c]) in H.
    rewrite app_assoc in H. apply app_inj_tail in H.
    destruct H as [-> ->]. auto.
Qed.

Lemma paired_printed (t : list event) :
  Spec.paired t -> printed t = map Spec.line_of (yielded t).
Proof.
  induction 1 as [| t got _ IH | t value _ IH].
  - reflexivity.
  - rewrite printed_app, yielded_app, map_app, IH. reflexivity.
  - rewrite printed_app, yielded_app, map_app, IH. reflexivity.
Qed.

Lemma paired_yield (t : list event) :
  Spec.paired t ->
  forall (pre post : list event) (value : Z * Z),
    t = pre ++ Yield value :: post ->
    exists pre',
      pre = pre' ++ [Print (Spec.line_of value)] /\ Spec.paired pre'.
Proof.
  induction 1 as [| t got _ IH | t v Hp IH]; intros pre post value Heq.
  - destruct pre; discriminate Heq.
  - apply snoc_eq_split in Heq.
    destruct Heq as [(_ & _ & Hbad) | (post' & _ & Ht)]; [discriminate Hbad |].
    exact (IH pre post' value Ht).
  - change (t ++ [Print (Spec.line_of v); Yield v])
      with (t ++ [Print (Spec.line_of v)] ++ [Yield v]) in Heq.
    rewrite app_assoc in Heq. apply snoc_eq_split in Heq.
    destruct Heq as [(_ & Hpre & Hv) | (post' & _ & Ht)].
    + injection Hv as <-. exists t. split; [symmetry; exact Hpre | exact Hp].
    + apply snoc_eq_split in Ht.
      destruct Ht as [(_ & _ & Hbad) | (post'' & _ & Ht)];
        [discriminate Hbad |].
      exact (IH pre post'' value Ht).
Qed.

Lemma data_gen_body_paired (w : io) :
  Spec.paired (trace w) -> Spec.paired (trace (snd (data_gen_body w))).
Proof.
  intros Hp. destruct (Nat.lt_ge_cases (List.length (stdin w)) 8) as [Hs | Hf].
  - rewrite data_gen_body_short by exact Hs. cbn [snd trace].
    apply Spec.paired_read. exact Hp.
  - destruct (data_gen_body_full w Hf) as (value & _ & ->). cbn [snd trace].
    change (trace w ++ [Read (firstn 8 (stdin w)); Print (Spec.line_of value);
                        Yield value])
      with (trace w ++ [Read (firstn 8 (stdin w))]
              ++ [Print (Spec.line_of value); Yield value]).
    rewrite app_assoc. apply Spec.paired_record, Spec.paired_read. exact Hp.
Qed.

Lemma data_gen_paired (fuel : nat) :
  forall w : io,
    Spec.paired (trace w) -> Spec.paired (trace (Spec.io_of (data_gen fuel w))).
Proof.
  induction fuel as [| fuel IH]; intros w Hp; [exact Hp |].
  rewrite data_gen_unfold.
  pose proof (data_gen_body_paired w Hp) as Hb.
  destruct (data_gen_body w) as [[| value |] w1]; cbn [snd] in Hb.
  - apply IH. exact Hb.
  - exact Hb.
  - exact Hb.
Qed.

Lemma pull_paired (fuels : list nat) :
  forall w : io, Spec.paired (trace w) -> Spec.paired (trace (pull fuels w)).
Proof.
  induction fuels as [| fuel rest IH]; intros w Hp; [exact Hp |].
  cbn [pull]. pose proof (data_gen_paired fuel w Hp) as Hs.
  destruct (data_gen fuel w) as [value w1 | w1 | w1 | w1]; cbn [Spec.io_of] in Hs.
  - apply IH. exact Hs.
  - exact Hs.
  - exact Hs.
  - apply IH. exact Hs.
Qed.

Lemma has_newline_app (s1 s2 : string) :
  Spec.has_newline (s1 ++ s2) = Spec.has_newline s1 || Spec.has_newline s2.
Proof.
  induction s1 as [| c s1 IH]; [reflexivity |].
  cbn [String.append Spec.has_newline]. rewrite IH. apply orb_assoc.
Qed.

Lemma repr_uint_no_newline (d : Decimal.uint) :
  Spec.has_newline (NilEmpty.string_of_uint d) = false.
Proof. induction d; cbn; assumption || reflexivity. Qed.

Lemma repr_int_no_newline (n : Z) : Spec.has_newline (PyNum.repr_int n) = false.
Proof.
  unfold PyNum.repr_int, NilZero.string_of_int, NilZero.string_of_uint.
  destruct (Z.to_int n) as [d | d].
  - destruct d; try reflexivity; apply repr_uint_no_newline.
  - cbn [Spec.has_newline]. rewrite orb_false_l.
    destruct d; try reflexivity; apply repr_uint_no_newline.
Qed.

(** C8.  In the generator's log, every [Yield] of a record comes right
    after the [Print] of that record: one line, the tuple as [(x, y)] and
    a line break.  The lines printed before it are those of the records
    yielded before it, one each and in the same order, so the [i]-th
    print precedes the [i]-th yield. *)
Theorem print_precedes_yield (input : list byte) (fuels : list nat)
        (pre post : list event) (value : Z * Z) :
  trace (pull fuels (start input)) = pre ++ Yield value :: post ->
  exists pre',
    pre = pre' ++ [Print (PyNum.repr_pair value ++ PyNum.newline)%string]
    /\ printed pre' = map Spec.line_of (yielded pre')
    /\ Spec.has_newline (PyNum.repr_pair value) = false.
Proof.
  intros Heq.
  assert (Hp : Spec.paired (trace (pull fuels (start input))))
    by (apply pull_paired; constructor).
  destruct (paired_yield _ Hp pre post value Heq) as (pre' & Hpre & Hp').
  exists pre'. split; [exact Hpre |]. split; [apply paired_printed; exact Hp' |].
  unfold PyNum.repr_pair.
  rewrite !has_newline_app, !repr_int_no_newline. reflexivity.
Qed.

Lemma print_precedes_yield_witness :
  trace (pull [1%nat] (start [x01; x00; x00; x00; x02; x00; x00; x00]))
  = [Read [x01; x00; x00; x00; x02; x00; x00; x00];
     Print ("(1, 2)" ++ PyNum.newline)%string] ++ Yield (1, 2) :: []
  /\ exists pre',
      [Read [x01; x00; x00; x00; x02; x00; x00; x00];
       Print ("(1, 2)" ++ PyNum.newline)%string]
      = pre' ++ [Print (PyNum.repr_pair (1, 2) ++ PyNum.newline)%string].
Proof.
  assert (Heq : trace (pull [1%nat]
                         (start [x01; x00; x00; x00; x02; x00; x00; x00]))
                = [Read [x01; x00; x00; x00; x02; x00; x00; x00];
                   Print ("(1, 2)" ++ PyNum.newline)%string]
                    ++ Yield (1, 2) :: [])
    by reflexivity.
  split; [exact Heq |].
  destruct (print_precedes_yield _ _ _ _ _ Heq) as (pre' & Hpre & _).
  exists pre'. exact Hpre.
Defined.

End ReaderFacts.

(** * Decoding loses nothing *)

Section FrameMore.
Import Frame.

Lemma byte_of_Z_unique (z : Z) (b : byte) : z mod 256 = byte_val b -> byte_of_Z z = b.
Proof.
  intros H. unfold byte_of_Z. rewrite H. unfold byte_val.
  rewrite N2Z.id, Byte.of_to_N. reflexivity.
Qed.

Lemma le_bytes_le_u32 (b0 b1 b2 b3 : byte) :
  le_bytes_u32 (le_u32 b0 b1 b2 b3) = [b0; b1; b2; b3].
Proof.
  pose proof (byte_val_range b0). pose proof (byte_val_range b1).
  pose proof (byte_val_range b2). pose proof (byte_val_range b3).
  unfold le_bytes_u32. rewrite le_u32_sum, !Z.shiftr_div_pow2 by lia.
  change (2 ^ 8) with 256. change (2 ^ 16) with 65536.
  change (2 ^ 24) with 16777216.
  repeat f_equal; apply byte_of_Z_unique.
  - Z.div_mod_to_equations. lia.
  - Z.div_mod_to_equations. lia.
  - Z.div_mod_to_equations. lia.
  - Z.div_mod_to_equations. lia.
Qed.

(** Decoding keeps every bit of a frame: packing the two decoded values
    gives the frame back, so two frames that decode to the same record are
    the same frame. *)
Theorem unpack_II_lossless (frame frame' : list byte) (value : Z * Z) :
  unpack_II frame = Some value ->
  pack_II (fst value) (snd value) = frame
  /\ (unpack_II frame' = Some value -> frame' = frame).
Proof.
  assert (Hpack : forall f v, unpack_II f = Some v -> pack_II (fst v) (snd v) = f).
  { intros f v H. unfold unpack_II in H.
    do 8 (destruct f as [| ? f]; [discriminate H |]).
    destruct f; [| discriminate H].
    injection H as <-. cbn [fst snd]. unfold pack_II.
    rewrite !le_bytes_le_u32. reflexivity. }
  intros H. split; [exact (Hpack _ _ H) |].
  intros H'. rewrite <- (Hpack _ _ H), <- (Hpack _ _ H'). reflexivity.
Qed.

Lemma unpack_II_lossless_witness :
  unpack_II [x78; x56; x34; x12; xff; xff; xff; xff] = Some (305419896, 4294967295)
  /\ pack_II 305419896 4294967295 = [x78; x56; x34; x12; xff; xff; xff; xff].
Proof.
  assert (H : unpack_II [x78; x56; x34; x12; xff; xff; xff; xff]
              = Some (305419896, 4294967295)) by reflexivity.
  split; [exact H |].
  exact (proj1 (unpack_II_lossless _ [] _ H)).
Defined.

End FrameMore.

(** * The order of binary64 values *)

Section FloatOrder.

Lemma SFltb_irrefl (a : spec_float) : SFltb a a = false.
Proof.
  unfold SFltb, SFcompare.
  destruct a as [s | s | | s m e];
    [destruct s; reflexivity | destruct s; reflexivity | reflexivity |].
  change (IntDef.Z.compare e e) with (Z.compare e e).
  change (PosDef.Pos.compare_cont Eq m m) with (Pos.compare m m).
  rewrite Z.compare_refl, Pos.compare_refl. destruct s; reflexivity.
Qed.

Lemma SFltb_asym (a b : spec_float) : SFltb a b = true -> SFltb b a = false.
Proof.
  unfold SFltb, SFcompare.
  destruct a as [sa | sa | | sa ma ea], b as [sb | sb | | sb mb eb];
    try (intros H; discriminate H);
    try (destruct sa; intros H; (discriminate H || reflexivity));
    try (destruct sb; intros H; (discriminate H || reflexivity));
    try (destruct sa, sb; intros H; (discriminate H || reflexivity)).
  change (IntDef.Z.compare ea eb) with (Z.compare ea eb).
  change (IntDef.Z.compare eb ea) with (Z.compare eb ea).
  change (PosDef.Pos.compare_cont Eq ma mb) with (Pos.compare ma mb).
  change (PosDef.Pos.compare_cont Eq mb ma) with (Pos.compare mb ma).
  rewrite (Z.compare_antisym ea eb), (Pos.compare_antisym ma mb).
  destruct sa, sb, (Z.compare ea eb), (Pos.compare ma mb); cbn [CompOpp];
    intros H; (discriminate H || reflexivity).
Qed.

(** [<] on floats is irreflexive and asymmetric, NaN included. *)
Lemma float_ltb_irrefl (a : float) : (a <? a)%float = false.
Proof. rewrite ltb_spec. apply SFltb_irrefl. Qed.

Lemma float_ltb_asym (a b : float) :
  (a <? b)%float = true -> (b <? a)%float = false.
Proof. rewrite !ltb_spec. apply SFltb_asym. Qed.

End FloatOrder.

(** * More on the update callback *)

Section UpdaterMore.
Import Updater.

Lemma widen_max_not_below (bound v : float) :
  (Spec.widen_max bound v <? bound)%float = false
  /\ (Spec.widen_max bound v <? v)%float = false.
Proof.
  unfold Spec.widen_max. destruct (bound <? v)%float eqn:E.
  - split; [apply float_ltb_asym; exact E | apply float_ltb_irrefl].
  - split; [apply float_ltb_irrefl | exact E].
Qed.

Lemma widen_min_not_above (bound v : float) :
  (bound <? Spec.widen_min bound v)%float = false
  /\ (v <? Spec.widen_min bound v)%float = false.
Proof.
  unfold Spec.widen_min. destruct (v <? bound)%float eqn:E.
  - split; [apply float_ltb_asym; exact E | apply float_ltb_irrefl].
  - split; [apply float_ltb_irrefl | exact E].
Qed.

(** One update never narrows the bounds, whatever they were and whatever
    the record: the new [x_max] is not below the old one nor below the new
    [x], the new [x_min] is not above the old one nor above the new [x],
    and each is the old bound or the new value; likewise for [y]. *)
Theorem bounds_never_narrow (data : Z * Z) (g : globals) :
  let g' := animate data g in
  let xn := PyNum.float_of_int (fst data) in
  let yn := PyNum.float_of_int (snd data) in
  ((x_max g' <? x_max g)%float = false /\ (x_max g' <? xn)%float = false
   /\ (x_max g' = x_max g \/ x_max g' = xn))
  /\ ((x_min g <? x_min g')%float = false /\ (xn <? x_min g')%float = false
      /\ (x_min g' = x_min g \/ x_min g' = xn))
  /\ ((y_max g' <? y_max g)%float = false /\ (y_max g' <? yn)%float = false
      /\ (y_max g' = y_max g \/ y_max g' = yn))
  /\ ((y_min g <? y_min g')%float = false /\ (yn <? y_min g')%float = false
      /\ (y_min g' = y_min g \/ y_min g' = yn)).
Proof.
  cbv zeta. rewrite animate_unfold. cbn [x_max x_min y_max y_min].
  repeat split;
    try apply widen_max_not_below; try apply widen_min_not_above;
    unfold Spec.widen_max, Spec.widen_min;
    match goal with
    | |- context [if ?c then _ else _] => destruct c; auto
    end.
Qed.

Lemma init_range :
  0 <= 0 < 2 ^ 53 /\ 0 <= 999999999 < 2 ^ 53.
Proof. split; (split; [lia | reflexivity]). Qed.

(** The bounds after a sequence of 32-bit records, as integers. *)
Lemma process_init_bounds (records : list (Z * Z)) (xlim ylim : float * float) :
  Forall Spec.record_ok records ->
  let g := process records (init xlim ylim) in
  x_max g = PyNum.float_of_int (Spec.maximum 0 (map fst records))
  /\ x_min g = PyNum.float_of_int (Spec.minimum 999999999 (map fst records))
  /\ y_max g = PyNum.float_of_int (Spec.maximum 0 (map snd records))
  /\ y_min g = PyNum.float_of_int (Spec.minimum 999999999 (map snd records)).
Proof.
  intros Hok. destruct init_range as [R0 R9].
  destruct (init_bounds xlim ylim) as (I1 & I2 & I3 & I4).
  exact (process_bounds records Hok (init xlim ylim) 0 999999999 0 999999999
           R0 R9 R0 R9 I1 I2 I3 I4).
Qed.

Lemma enclosed (lo hi : Z) (vs : list Z) (v : Z) :
  Forall Spec.u32 vs -> In v vs ->
  let m := Spec.minimum lo vs in
  let M := Spec.maximum hi vs in
  0 <= lo < 2 ^ 53 -> 0 <= hi < 2 ^ 53 ->
  (PyNum.float_of_int v <? PyNum.float_of_int m)%float = false
  /\ (PyNum.float_of_int M <? PyNum.float_of_int v)%float = false
  /\ (PyNum.float_of_int M <? PyNum.float_of_int m)%float = false.
Proof.
  intros Hvs Hin m M Hlo Hhi.
  pose proof (maximum_range hi vs Hhi Hvs) as HM.
  pose proof (minimum_range lo vs Hlo Hvs) as Hm.
  destruct (maximum_spec hi vs) as [_ HMall].
  destruct (minimum_spec lo vs) as [_ Hmall].
  rewrite Forall_forall in HMall, Hmall, Hvs.
  pose proof (HMall v (or_intror Hin)) as HvM.
  pose proof (Hmall v (or_intror Hin)) as Hvm. cbv beta in HvM, Hvm.
  pose proof (u32_small v (Hvs v Hin)) as Hv.
  fold m in Hm, Hvm. fold M in HM, HvM.
  rewrite !float_of_int_ltb by lia.
  repeat split; apply Z.ltb_ge; lia.
Qed.

(** After any sequence of 32-bit records, every value in [x] lies between
    [x_min] and [x_max], and every value in [y] between [y_min] and
    [y_max].  Before the first record the bounds are the other way round
    ([x_max < x_min]); after it they are in order. *)
Theorem series_within_bounds (records : list (Z * Z))
        (xlim ylim : float * float) :
  Forall Spec.record_ok records ->
  let g := process records (init xlim ylim) in
  (forall v : float, In v (x g) ->
     (v <? x_min g)%float = false /\ (x_max g <? v)%float = false)
  /\ (forall v : float, In v (y g) ->
        (v <? y_min g)%float = false /\ (y_max g <? v)%float = false)
  /\ (x_max g <? x_min g)%float = (match records with [] => true | _ => false end)
  /\ (y_max g <? y_min g)%float = (match records with [] => true | _ => false end).
Proof.
  intros Hok g. destruct init_range as [R0 R9].
  destruct (process_init_bounds records xlim ylim Hok) as (B1 & B2 & B3 & B4).
  destruct (process_series records (init xlim ylim)) as [Sx Sy].
  cbn [init x y app] in Sx, Sy.
  pose proof (records_fst records Hok) as Ux.
  pose proof (records_snd records Hok) as Uy.
  subst g. rewrite B1, B2, B3, B4, Sx, Sy.
  split; [| split; [| split]].
  - intros v Hin. apply in_map_iff in Hin. destruct Hin as (d & <- & Hd).
    assert (Hf : In (fst d) (map fst records)) by (apply in_map; exact Hd).
    destruct (enclosed 999999999 0 _ _ Ux Hf R9 R0) as (E1 & E2 & _). auto.
  - intros v Hin. apply in_map_iff in Hin. destruct Hin as (d & <- & Hd).
    assert (Hf : In (snd d) (map snd records)) by (apply in_map; exact Hd).
    destruct (enclosed 999999999 0 _ _ Uy Hf R9 R0) as (E1 & E2 & _). auto.
  - destruct records as [| d rest]; [reflexivity |].
    assert (Hf : In (fst d) (map fst (d :: rest))) by (left; reflexivity).
    exact (proj2 (proj2 (enclosed 999999999 0 _ _ Ux Hf R9 R0))).
  - destruct records as [| d rest]; [reflexivity |].
    assert (Hf : In (snd d) (map snd (d :: rest))) by (left; reflexivity).
    exact (proj2 (proj2 (enclosed 999999999 0 _ _ Uy Hf R9 R0))).
Qed.

Lemma series_within_bounds_witness :
  Forall Spec.record_ok [(7, 3000000000); (2, 5)]
  /\ let g := process [(7, 3000000000); (2, 5)] (init (0, 1)%float (0, 1)%float) in
     (x_max g <? x_min g)%float = false.
Proof.
  assert (Hok : Forall Spec.record_ok [(7, 3000000000); (2, 5)]).
  { repeat constructor; cbn; lia. }
  split; [exact Hok |].
  exact (proj1 (proj2 (proj2 (series_within_bounds [(7, 3000000000); (2, 5)]
                                (0, 1)%float (0, 1)%float Hok)))).
Defined.

Lemma maximum_same_elements (s : Z) (l l' : list Z) :
  (forall v, In v l <-> In v l') -> Spec.maximum s l = Spec.maximum s l'.
Proof.
  intros Hsame.
  destruct (maximum_spec s l) as [Hin Hall].
  destruct (maximum_spec s l') as [Hin' Hall'].
  rewrite Forall_forall in Hall, Hall'.
  assert (Hto : forall v, In v (s :: l) -> In v (s :: l')).
  { intros v [<- | Hv]; [left; reflexivity | right; apply Hsame; exact Hv]. }
  assert (Hfrom : forall v, In v (s :: l') -> In v (s :: l)).
  { intros v [<- | Hv]; [left; reflexivity | right; apply Hsame; exact Hv]. }
  pose proof (Hall' _ (Hto _ Hin)). pose proof (Hall _ (Hfrom _ Hin')).
  cbv beta in *. lia.
Qed.

Lemma minimum_same_elements (s : Z) (l l' : list Z) :
  (forall v, In v l <-> In v l') -> Spec.minimum s l = Spec.minimum s l'.
Proof.
  intros Hsame.
  destruct (minimum_spec s l) as [Hin Hall].
  destruct (minimum_spec s l') as [Hin' Hall'].
  rewrite Forall_forall in Hall, Hall'.
  assert (Hto : forall v, In v (s :: l) -> In v (s :: l')).
  { intros v [<- | Hv]; [left; reflexivity | right; apply Hsame; exact Hv]. }
  assert (Hfrom : forall v, In v (s :: l') -> In v (s :: l)).
  { intros v [<- | Hv]; [left; reflexivity | right; apply Hsame; exact Hv]. }
  pose proof (Hall' _ (Hto _ Hin)). pose proof (Hall _ (Hfrom _ Hin')).
  cbv beta in *. lia.
Qed.

Lemma map_same_elements {A B : Type} (f : A -> B) (l l' : list A) :
  (forall a, In a l <-> In a l') ->
  forall b, In b (map f l) <-> In b (map f l').
Proof.
  intros Hsame b. rewrite !in_map_iff.
  split; intros (a & Hb & Ha); exists a; (split; [exact Hb | apply Hsame; exact Ha]).
Qed.

(** The bounds depend only on which records were seen, not on their order
    nor on how often each came: two sequences of 32-bit records with the
    same elements leave the same four bounds. *)
Theorem bounds_depend_on_set (records records' : list (Z * Z))
        (xlim ylim xlim' ylim' : float * float) :
  Forall Spec.record_ok records -> Forall Spec.record_ok records' ->
  (forall data, In data records <-> In data records') ->
  Spec.bounds (process records (init xlim ylim))
  = Spec.bounds (process records' (init xlim' ylim')).
Proof.
  intros Hok Hok' Hsame.
  destruct (process_init_bounds records xlim ylim Hok) as (B1 & B2 & B3 & B4).
  destruct (process_init_bounds records' xlim' ylim' Hok')
    as (B1' & B2' & B3' & B4').
  unfold Spec.bounds. rewrite B1, B2, B3, B4, B1', B2', B3', B4'.
  rewrite (maximum_same_elements 0 _ _ (map_same_elements fst _ _ Hsame)).
  rewrite (minimum_same_elements 999999999 _ _ (map_same_elements fst _ _ Hsame)).
  rewrite (maximum_same_elements 0 _ _ (map_same_elements snd _ _ Hsame)).
  rewrite (minimum_same_elements 999999999 _ _ (map_same_elements snd _ _ Hsame)).
  reflexivity.
Qed.

Lemma bounds_depend_on_set_witness :
  (Forall Spec.record_ok [(7, 30); (2, 5); (7, 30)]
   /\ Forall Spec.record_ok [(2, 5); (7, 30)]
   /\ forall data, In data [(7, 30); (2, 5); (7, 30)] <-> In data [(2, 5); (7, 30)])
  /\ Spec.bounds (process [(7, 30); (2, 5); (7, 30)] (init (0, 1)%float (0, 1)%float))
     = Spec.bounds (process [(2, 5); (7, 30)] (init (0, 1)%float (0, 1)%float)).
Proof.
  assert (H1 : Forall Spec.record_ok [(7, 30); (2, 5); (7, 30)])
    by (repeat constructor; cbn; lia).
  assert (H2 : Forall Spec.record_ok [(2, 5); (7, 30)])
    by (repeat constructor; cbn; lia).
  assert (H3 : forall data, In data [(7, 30); (2, 5); (7, 30)]
                            <-> In data [(2, 5); (7, 30)])
    by (intros data; cbn; tauto).
  split; [exact (conj H1 (conj H2 H3)) |].
  exact (bounds_depend_on_set _ _ (0, 1)%float (0, 1)%float
           (0, 1)%float (0, 1)%float H1 H2 H3).
Defined.

(** After at least one update, from any state, the plotted line holds the
    whole series and the axis limits are the padded current bounds. *)
Theorem view_in_step_with_state (records : list (Z * Z)) (g : globals) :
  records <> [] ->
  let g' := process records g in
  line_data g' = (x g', y g')
  /\ Spec.limits g' = Spec.display_limits (Spec.bounds g').
Proof.
  intros Hne. destruct (exists_last Hne) as (rest & data & ->).
  cbv zeta. rewrite process_app. cbn [process fold_left].
  rewrite animate_unfold. split; reflexivity.
Qed.

Lemma view_in_step_with_state_witness :
  [(1, 2); (3, 4)] <> []
  /\ let g' := process [(1, 2); (3, 4)] (init (0, 1)%float (0, 1)%float) in
     line_data g' = (x g', y g').
Proof.
  assert (Hne : [(1, 2); (3, 4)] <> []) by discriminate.
  split; [exact Hne |].
  exact (proj1 (view_in_step_with_state [(1, 2); (3, 4)]
                  (init (0, 1)%float (0, 1)%float) Hne)).
Defined.

(** Where an interrupt finds the series.  When [k] statements of the
    callback have run, [x] has the new value from the ninth statement on
    and [y] from the tenth on, and the plotted line is renewed only by the
    eleventh.  So the two series differ in length exactly when the
    interrupt arrives between the two appends. *)
Theorem interrupted_series (k : nat) (data : Z * Z) (g : globals) :
  let g' := Spec.after_statements k data g in
  x g' = (if (k <=? 8)%nat then x g else x g ++ [PyNum.float_of_int (fst data)])
  /\ y g' = (if (k <=? 9)%nat then y g else y g ++ [PyNum.float_of_int (snd data)])
  /\ line_data g' = (if (k <=? 10)%nat then line_data g else (x g', y g'))
  /\ (List.length (x g) = List.length (y g) ->
      (List.length (x g') = List.length (y g') <-> k <> 9%nat)
      /\ (List.length (y g') <= List.length (x g') <= S (List.length (y g')))%nat).
Proof.
  cbv zeta.
  assert (H : x (Spec.after_statements k data g)
              = (if (k <=? 8)%nat then x g
                 else x g ++ [PyNum.float_of_int (fst data)])
              /\ y (Spec.after_statements k data g)
                 = (if (k <=? 9)%nat then y g
                    else y g ++ [PyNum.float_of_int (snd data)])
              /\ line_data (Spec.after_statements k data g)
                 = (if (k <=? 10)%nat then line_data g
                    else (x (Spec.after_statements k data g),
                          y (Spec.after_statements k data g)))).
  { unfold Spec.after_statements, animate_body.
    generalize (PyNum.float_of_int (fst data)) as xn.
    generalize (PyNum.float_of_int (snd data)) as yn.
    intros yn xn.
    do 12 (destruct k as [| k];
           [cbv [firstn fold_left on_globals set_xlim_stmt set_ylim_stmt
                 fst snd x_new y_new];
            rewrite ?guarded_set_x_max, ?guarded_set_x_min,
                    ?guarded_set_y_max, ?guarded_set_y_min;
            cbn [set_x_max set_x_min set_y_max set_y_min set_xlim set_ylim
                 x_append y_append set_data x y line_data Nat.leb];
            auto |]).
    cbn [firstn]. rewrite firstn_nil.
    cbv [fold_left on_globals set_xlim_stmt set_ylim_stmt
         fst snd x_new y_new].
    rewrite ?guarded_set_x_max, ?guarded_set_x_min,
            ?guarded_set_y_max, ?guarded_set_y_min.
    cbn [set_x_max set_x_min set_y_max set_y_min set_xlim set_ylim
         x_append y_append set_data x y line_data Nat.leb].
    auto. }
  destruct H as (Hx & Hy & Hl).
  split; [exact Hx | split; [exact Hy | split; [exact Hl |]]].
  intros Hlen. rewrite Hx, Hy.
  destruct (Nat.leb_spec k 8), (Nat.leb_spec k 9);
    rewrite ?length_app; cbn [List.length]; lia.
Qed.

Lemma interrupted_series_witness :
  let g := init (0, 1)%float (0, 1)%float in
  List.length (x g) = List.length (y g)
  /\ ~ List.length (x (Spec.after_statements 9 (1, 2) g))
       = List.length (y (Spec.after_statements 9 (1, 2) g)).
Proof.
  cbv zeta.
  assert (Hlen : List.length (x (init (0, 1)%float (0, 1)%float))
                 = List.length (y (init (0, 1)%float (0, 1)%float)))
    by reflexivity.
  split; [exact Hlen |].
  destruct (interrupted_series 9 (1, 2) (init (0, 1)%float (0, 1)%float))
    as (_ & _ & _ & H).
  destruct (H Hlen) as [[Hto _] _]. intros Heq. exact (Hto Heq eq_refl).
Defined.

End UpdaterMore.

(** * The generator on whole inputs *)

Section ReaderRuns.
Import Reader.

(** Every call of [next] that makes at least one pass either yields the
    record decoded from the next 8 bytes, consuming exactly those, or finds
    fewer than 8 bytes and keeps reading nothing.  It never raises and
    never returns. *)
Theorem data_gen_outcomes (fuel : nat) (w : io) :
  match data_gen (S fuel) w with
  | Yielded value w' =>
      (8 <= List.length (stdin w))%nat
      /\ Frame.unpack_II (firstn 8 (stdin w)) = Some value
      /\ Spec.record_ok value
      /\ stdin w' = skipn 8 (stdin w)
      /\ trace w' = trace w ++ [Read (firstn 8 (stdin w));
                                Print (Spec.line_of value); Yield value]
  | Spinning w' =>
      (List.length (stdin w) < 8)%nat
      /\ stdin w' = []
      /\ trace w' = trace w ++ Spec.idle_reads (S fuel) (stdin w)
  | StopIteration _ => False
  | Raised _ => False
  end.
Proof.
  destruct (Nat.lt_ge_cases (List.length (stdin w)) 8) as [Hs | Hf].
  - rewrite data_gen_short by exact Hs. cbn [stdin trace]. auto.
  - rewrite data_gen_unfold.
    destruct (data_gen_body_full w Hf) as (value & Hv & ->).
    cbn [stdin trace].
    exact (conj Hf (conj Hv (conj (unpack_II_ok _ _ Hv)
                                  (conj eq_refl eq_refl)))).
Qed.

Lemma frames_length (n : nat) :
  forall input : list byte,
    (8 * n <= List.length input)%nat -> List.length (Run.frames n input) = n.
Proof.
  induction n as [| n IH]; intros input Hlen; [reflexivity |].
  cbn [Run.frames].
  assert (H8 : List.length (firstn 8 input) = 8%nat)
    by (apply firstn_length_le; lia).
  destruct (unpack_II_length _ H8) as [value ->].
  cbn [List.length]. rewrite IH; [reflexivity |].
  rewrite length_skipn. lia.
Qed.

Lemma frames_nth (n : nat) :
  forall (input : list byte) (i : nat),
    (i < n)%nat -> (8 * n <= List.length input)%nat ->
    nth_error (Run.frames n input) i
    = Frame.unpack_II (firstn 8 (skipn (8 * i) input)).
Proof.
  induction n as [| n IH]; intros input i Hi Hlen; [lia |].
  cbn [Run.frames].
  assert (H8 : List.length (firstn 8 input) = 8%nat)
    by (apply firstn_length_le; lia).
  destruct (unpack_II_length _ H8) as [value Hv]. rewrite Hv.
  destruct i as [| i].
  - cbn [nth_error]. rewrite Nat.mul_0_r, skipn_0. symmetry. exact Hv.
  - cbn [nth_error]. rewrite IH by (rewrite ?length_skipn; lia).
    rewrite skipn_skipn. replace (8 * i + 8)%nat with (8 * S i)%nat by lia.
    reflexivity.
Qed.

Lemma frames_ok (n : nat) :
  forall input : list byte, Forall Spec.record_ok (Run.frames n input).
Proof.
  induction n as [| n IH]; intros input; [constructor |].
  cbn [Run.frames].
  destruct (Frame.unpack_II (firstn 8 input)) as [value |] eqn:Hv;
    constructor; [exact (unpack_II_ok _ _ Hv) | apply IH].
Qed.

Lemma records_of_short (input : list byte) :
  (List.length input < 8)%nat -> Run.records_of input = [].
Proof.
  intros Hlen. unfold Run.records_of. rewrite Nat.div_small by exact Hlen.
  reflexivity.
Qed.

Lemma records_of_full (input : list byte) (value : Z * Z) :
  (8 <= List.length input)%nat ->
  Frame.unpack_II (firstn 8 input) = Some value ->
  Run.records_of input = value :: Run.records_of (skipn 8 input).
Proof.
  intros Hlen Hv. unfold Run.records_of. rewrite length_skipn.
  replace (List.length input) with (List.length input - 8 + 1 * 8)%nat at 1
    by lia.
  rewrite Nat.div_add by lia. rewrite Nat.add_1_r.
  cbn [Run.frames]. rewrite Hv. reflexivity.
Qed.

Lemma animation_records (n fuel : nat) :
  forall (w : io) (g : Updater.globals),
    let seen := firstn n (Run.records_of (stdin w)) in
    snd (Main.animation n (S fuel) w g) = Updater.process seen g
    /\ yielded (trace (fst (Main.animation n (S fuel) w g)))
       = yielded (trace w) ++ seen
    /\ printed (trace (fst (Main.animation n (S fuel) w g)))
       = printed (trace w) ++ map Spec.line_of seen.
Proof.
  induction n as [| n IH]; intros w g; cbv zeta.
  - cbn. rewrite !app_nil_r. auto.
  - cbn [Main.animation].
    pose proof (data_gen_outcomes fuel w) as H.
    destruct (data_gen (S fuel) w) as [value w' | w' | w' | w'];
      try contradiction.
    + destruct H as (Hlen & Hv & _ & Hin & Htr).
      rewrite (records_of_full _ _ Hlen Hv). cbn [firstn map].
      destruct (IH w' (Updater.animate value g)) as (I1 & I2 & I3).
      rewrite Hin in I1, I2, I3. rewrite I1, I2, I3, Htr.
      rewrite yielded_app, printed_app. cbn [yielded printed flat_map app].
      rewrite <- !app_assoc. cbn [app]. auto.
    + destruct H as (Hlen & _ & Htr).
      rewrite (records_of_short _ Hlen), firstn_nil. cbn [fst snd map].
      rewrite Htr, yielded_app, printed_app.
      destruct (idle_reads_silent (S fuel) (stdin w)) as [-> ->].
      rewrite !app_nil_r. auto.
Qed.

(** The animation on a whole input.  The records of an input are its
    [length / 8] full frames, the [i]-th decoded from bytes [8 i] to
    [8 i + 7]; the bytes after the last full frame give none.  After [n]
    requests the callback has been applied to the first [n] of them, in
    order and once each (to all of them when there are fewer than [n]), and
    their lines, and no others, have been printed. *)
Theorem animation_processes_records (input : list byte) (n fuel : nat)
        (g : Updater.globals) :
  let records := Run.records_of input in
  let seen := firstn n records in
  let done := Main.animation n (S fuel) (start input) g in
  (List.length records = (List.length input / 8)%nat
   /\ forall i : nat,
        (i < List.length input / 8)%nat ->
        nth_error records i
        = Frame.unpack_II (firstn 8 (skipn (8 * i) input)))
  /\ snd done = Updater.process seen g
  /\ yielded (trace (fst done)) = seen
  /\ printed (trace (fst done)) = map Spec.line_of seen
  /\ List.length (Updater.x (snd done))
     = (List.length (Updater.x g) + Nat.min n (List.length input / 8))%nat.
Proof.
  cbv zeta.
  pose proof (Nat.Div0.mul_div_le (List.length input) 8) as Hdiv.
  assert (Hlen : List.length (Run.records_of input)
                 = (List.length input / 8)%nat)
    by (apply frames_length; exact Hdiv).
  destruct (animation_records n fuel (start input) g) as (H1 & H2 & H3).
  cbn [start stdin trace yielded printed flat_map app] in H1, H2, H3.
  split; [split; [exact Hlen |] | split; [exact H1 | split; [exact H2 |
          split; [exact H3 |]]]].
  - intros i Hi. apply frames_nth; assumption.
  - rewrite H1. destruct (process_series (firstn n (Run.records_of input)) g)
      as [-> _].
    rewrite length_app, length_map, length_firstn, Hlen. reflexivity.
Qed.

(** Whatever bytes come in, every record that reaches the callback is a
    pair of 32-bit values, so after [n] requests the four bounds are the
    extrema of the initial values and the records seen, and every point of
    the series lies within them. *)
Theorem animation_bounds_any_input (input : list byte) (n fuel : nat)
        (xlim ylim : float * float) :
  let seen := firstn n (Run.records_of input) in
  let g := snd (Main.animation n (S fuel) (start input)
                               (Updater.init xlim ylim)) in
  Forall Spec.record_ok seen
  /\ (Updater.x_max g = PyNum.float_of_int (Spec.maximum 0 (map fst seen))
      /\ Updater.x_min g
         = PyNum.float_of_int (Spec.minimum 999999999 (map fst seen))
      /\ Updater.y_max g = PyNum.float_of_int (Spec.maximum 0 (map snd seen))
      /\ Updater.y_min g
         = PyNum.float_of_int (Spec.minimum 999999999 (map snd seen)))
  /\ (forall v : float, In v (Updater.x g) ->
        (v <? Updater.x_min g)%float = false
        /\ (Updater.x_max g <? v)%float = false)
  /\ (forall v : float, In v (Updater.y g) ->
        (v <? Updater.y_min g)%float = false
        /\ (Updater.y_max g <? v)%float = false).
Proof.
  cbv zeta.
  assert (Hok : Forall Spec.record_ok (firstn n (Run.records_of input)))
    by (apply Forall_firstn_keep, frames_ok).
  destruct (animation_records n fuel (start input) (Updater.init xlim ylim))
    as (-> & _ & _).
  cbn [start stdin].
  destruct (series_within_bounds _ xlim ylim Hok) as (Wx & Wy & _).
  split; [exact Hok |]. split; [exact (process_init_bounds _ xlim ylim Hok) |].
  split; [exact Wx | exact Wy].
Qed.

Lemma pull_closed (fuels : list nat) :
  forall w : io, stdin w = [] ->
    stdin (pull fuels w) = []
    /\ yielded (trace (pull fuels w)) = yielded (trace w).
Proof.
  induction fuels as [| fuel rest IH]; intros w Hw; [auto |].
  cbn [pull]. rewrite data_gen_short by (rewrite Hw; cbn; lia).
  destruct (IH {| stdin := match fuel with O => stdin w | S _ => [] end;
                  trace := trace w ++ Spec.idle_reads fuel (stdin w) |})
    as [H1 H2]; [cbn [stdin]; destruct fuel; [exact Hw | reflexivity] |].
  split; [exact H1 |]. rewrite H2. cbn [trace]. rewrite yielded_app.
  destruct (idle_reads_silent fuel (stdin w)) as [-> _]. apply app_nil_r.
Qed.

Lemma frames_after_one (input : list byte) :
  (8 <= List.length input)%nat ->
  (List.length input / 8 = S (List.length (skipn 8 input) / 8))%nat.
Proof.
  intros Hlen. rewrite length_skipn.
  replace (List.length input) with (List.length input - 8 + 1 * 8)%nat at 1
    by lia.
  rewrite Nat.div_add by lia. lia.
Qed.

Lemma pull_position (fuels : list nat) :
  forall w : io,
    let n := List.length fuels in
    let frames := (List.length (stdin w) / 8)%nat in
    stdin (pull (map S fuels) w)
    = (if (n <=? frames)%nat then skipn (8 * n) (stdin w) else [])
    /\ List.length (yielded (trace (pull (map S fuels) w)))
       = (List.length (yielded (trace w)) + Nat.min n frames)%nat.
Proof.
  induction fuels as [| fuel rest IH]; intros w; cbv zeta.
  - cbn. rewrite Nat.add_0_r. auto.
  - cbn [map pull List.length].
    pose proof (data_gen_outcomes fuel w) as H.
    destruct (data_gen (S fuel) w) as [value w' | w' | w' | w'];
      try contradiction.
    + destruct H as (Hlen & _ & _ & Hin & Htr).
      destruct (IH w') as [P1 P2]. cbv zeta in P1, P2.
      rewrite Hin in P1, P2. rewrite P1, P2, Htr.
      rewrite (frames_after_one _ Hlen).
      rewrite yielded_app, length_app. cbn [yielded flat_map app List.length].
      rewrite skipn_skipn.
      replace (8 * List.length rest + 8)%nat with (8 * S (List.length rest))%nat
        by lia.
      split; [reflexivity |].
      rewrite <- Nat.succ_min_distr. lia.
    + destruct H as (Hlen & Hin & Htr).
      destruct (pull_closed (map S rest) w' Hin) as [-> ->].
      rewrite Htr, yielded_app.
      destruct (idle_reads_silent (S fuel) (stdin w)) as [-> _].
      rewrite app_nil_r, (Nat.div_small _ 8 Hlen). cbn [Nat.leb].
      rewrite Nat.min_0_r, Nat.add_0_r. auto.
Qed.

(** The reader keeps to the frames.  After [n] requests, each running at
    least one pass, on an input that has at least [n] full frames, exactly
    the first [8 n] bytes are consumed and [n] records have been yielded;
    the rest of the input is untouched.  When the input has fewer full
    frames, all of them have been yielded and the request after the last
    one has consumed the trailing bytes as well. *)
Theorem reader_keeps_frame_alignment (input : list byte) (fuels : list nat) :
  let n := List.length fuels in
  let frames := (List.length input / 8)%nat in
  let w := pull (map S fuels) (start input) in
  stdin w = (if (n <=? frames)%nat then skipn (8 * n) input else [])
  /\ List.length (yielded (trace w)) = Nat.min n frames.
Proof.
  cbv zeta. destruct (pull_position fuels (start input)) as [H1 H2].
  exact (conj H1 H2).
Qed.

End ReaderRuns.

(** * Rounding *)

Section Rounding.

Lemma iter_pos_nat {A : Type} (f : A -> A) (k : positive) :
  forall a : A, SpecFloat.iter_pos f k a = Nat.iter (Pos.to_nat k) f a.
Proof.
  induction k as [k IH | k IH |]; intros a; cbn [SpecFloat.iter_pos].
  - rewrite !IH, Pos2Nat.inj_xI, <- Nat.iter_succ_r.
    replace (S (2 * Pos.to_nat k)) with (Pos.to_nat k + S (Pos.to_nat k))%nat by lia.
    rewrite Nat.iter_add. reflexivity.
  - rewrite !IH, Pos2Nat.inj_xO.
    replace (2 * Pos.to_nat k)%nat with (Pos.to_nat k + Pos.to_nat k)%nat by lia.
    rewrite Nat.iter_add. reflexivity.
  - reflexivity.
Qed.

Lemma shr_1_m (mrs : SpecFloat.shr_record) :
  0 <= SpecFloat.shr_m mrs ->
  SpecFloat.shr_m (SpecFloat.shr_1 mrs) = SpecFloat.shr_m mrs / 2.
Proof.
  destruct mrs as [m r s]. cbn [SpecFloat.shr_m SpecFloat.shr_1]. intros Hm.
  destruct m as [| [p | p |] | p]; cbn [SpecFloat.shr_m];
    Z.div_mod_to_equations; lia.
Qed.

Lemma shr_iter_m (n : nat) :
  forall mrs : SpecFloat.shr_record,
    0 <= SpecFloat.shr_m mrs ->
    SpecFloat.shr_m (Nat.iter n SpecFloat.shr_1 mrs)
    = SpecFloat.shr_m mrs / 2 ^ Z.of_nat n.
Proof.
  induction n as [| n IH]; intros mrs Hm.
  - cbn. rewrite Z.div_1_r. reflexivity.
  - rewrite Nat.iter_succ, shr_1_m.
    + rewrite IH by exact Hm. rewrite Nat2Z.inj_succ, Z.pow_succ_r by lia.
      rewrite Z.div_div by lia. f_equal. lia.
    + rewrite IH by exact Hm. apply Z.div_pos; lia.
Qed.

Lemma digits_unique (p : positive) (d : Z) :
  2 ^ (d - 1) <= Zpos p < 2 ^ d -> Zpos (SpecFloat.digits2_pos p) = d.
Proof.
  intros [Hlo Hhi]. pose proof (digits_bounds p) as [Blo Bhi].
  set (D := Zpos (SpecFloat.digits2_pos p)) in *.
  assert (HD : 1 <= D) by (unfold D; lia).
  assert (Hd : 1 <= d).
  { destruct (Z.le_gt_cases 1 d) as [H | H]; [exact H |].
    assert (2 ^ d <= 2 ^ 0) by (apply Z.pow_le_mono_r; lia).
    change (2 ^ 0) with 1 in *. lia. }
  destruct (Z.lt_trichotomy D d) as [Hlt | [Heq | Hgt]]; [| exact Heq |].
  - assert (2 ^ D <= 2 ^ (d - 1)) by (apply Z.pow_le_mono_r; lia). lia.
  - assert (2 ^ d <= 2 ^ (D - 1)) by (apply Z.pow_le_mono_r; lia). lia.
Qed.

Lemma round_nearest_even_cases (m : Z) (l : SpecFloat.location) :
  SpecFloat.round_nearest_even m l = m \/ SpecFloat.round_nearest_even m l = m + 1.
Proof.
  unfold SpecFloat.round_nearest_even.
  destruct l as [| [| |]]; auto. destruct (Z.even m); auto.
Qed.

(** A mantissa of 53 digits at an exponent in range is left alone. *)
Lemma shr_fexp_fits (m : positive) (e : Z) :
  Zpos (SpecFloat.digits2_pos m) = 53 -> -1074 <= e ->
  SpecFloat.shr_fexp prec emax (Zpos m) e SpecFloat.loc_Exact
  = ({| SpecFloat.shr_m := Zpos m; SpecFloat.shr_r := false;
        SpecFloat.shr_s := false |}, e).
Proof.
  intros Hd He.
  unfold SpecFloat.shr_fexp, SpecFloat.fexp, SpecFloat.emin, SpecFloat.Zdigits2.
  rewrite Hd. change prec with 53. change emax with 1024.
  rewrite Z.max_l by lia.
  replace (53 + e - 53 - e) with 0 by lia. reflexivity.
Qed.

(** Rounding a positive mantissa of at least 53 digits, away from
    underflow and overflow: the result is finite and positive, and differs
    from the exact value by at most its own [2^-52]-th part. *)
Lemma binary_round_aux_normal (P : positive) (e : Z) :
  let D := Zpos (SpecFloat.digits2_pos P) in
  53 <= D -> -1074 <= D + e - 53 -> D + e - 53 < 971 ->
  exists (m : positive) (e' : Z),
    SpecFloat.binary_round_aux prec emax false (Zpos P) e SpecFloat.loc_Exact
    = S754_finite false m e'
    /\ D + e - 53 <= e' <= D + e - 52
    /\ 2 ^ 52 * (Zpos m * 2 ^ (e' - e) - Zpos P) <= Zpos m * 2 ^ (e' - e)
    /\ 2 ^ 52 * (Zpos P - Zpos m * 2 ^ (e' - e)) <= Zpos m * 2 ^ (e' - e).
Proof.
  intros D HD Hlo Hhi. pose proof (digits_bounds P) as [Blo Bhi]. fold D in Blo, Bhi.
  set (k := D - 53).
  assert (Hk : 0 <= k) by (unfold k; lia).
  set (q := Zpos P / 2 ^ k).
  assert (Hpk : 0 < 2 ^ k) by (apply Z.pow_pos_nonneg; lia).
  assert (Hsplit : 2 ^ (D - 1) = 2 ^ 52 * 2 ^ k /\ 2 ^ D = 2 ^ 53 * 2 ^ k).
  { split; rewrite <- Z.pow_add_r by lia; f_equal; unfold k; lia. }
  destruct Hsplit as [S1 S2].
  assert (Hq : 2 ^ 52 <= q < 2 ^ 53).
  { unfold q. split.
    - apply Z.div_le_lower_bound; lia.
    - apply Z.div_lt_upper_bound; lia. }
  assert (Hqk : q * 2 ^ k <= Zpos P < (q + 1) * 2 ^ k).
  { unfold q. pose proof (Z.div_mod (Zpos P) (2 ^ k) ltac:(lia)) as Hdm.
    pose proof (Z.mod_pos_bound (Zpos P) (2 ^ k) Hpk) as Hmb. nia. }
  (* the first shift *)
  assert (H1 : exists mrs,
             SpecFloat.shr_fexp prec emax (Zpos P) e SpecFloat.loc_Exact
             = (mrs, e + k) /\ SpecFloat.shr_m mrs = q).
  { unfold SpecFloat.shr_fexp, SpecFloat.fexp, SpecFloat.emin, SpecFloat.Zdigits2.
    fold D. change prec with 53. change emax with 1024.
    rewrite Z.max_l by lia.
    replace (D + e - 53 - e) with k by (unfold k; lia).
    unfold SpecFloat.shr, SpecFloat.shr_record_of_loc.
    destruct k as [| kp | kp] eqn:Ek; [| | lia].
    - eexists. split; [rewrite Z.add_0_r; reflexivity |].
      cbn [SpecFloat.shr_m]. unfold q. rewrite Z.div_1_r. reflexivity.
    - eexists. split; [reflexivity |].
      rewrite iter_pos_nat, shr_iter_m by (cbn; lia).
      cbn [SpecFloat.shr_m]. rewrite positive_nat_Z. reflexivity. }
  destruct H1 as (mrs & H1 & Hm).
  unfold SpecFloat.binary_round_aux. rewrite H1, Hm.
  assert (Hr : exists m1 : positive,
             SpecFloat.round_nearest_even q (SpecFloat.loc_of_shr_record mrs)
             = Zpos m1 /\ q <= Zpos m1 <= q + 1).
  { destruct (round_nearest_even_cases q (SpecFloat.loc_of_shr_record mrs))
      as [-> | ->].
    - exists (Z.to_pos q). rewrite Z2Pos.id by lia. split; [reflexivity | lia].
    - exists (Z.to_pos (q + 1)). rewrite Z2Pos.id by lia.
      split; [reflexivity | lia]. }
  destruct Hr as (m1 & -> & Hm1).
  destruct (Z.eq_dec (Zpos m1) (2 ^ 53)) as [Htop | Hnot].
  - (* the mantissa reached 2^53: one more shift, exactly *)
    assert (Hd1 : Zpos (SpecFloat.digits2_pos m1) = 54).
    { apply digits_unique. rewrite Htop. split; [reflexivity | reflexivity]. }
    assert (H2 : SpecFloat.shr_fexp prec emax (Zpos m1) (e + k) SpecFloat.loc_Exact
                 = ({| SpecFloat.shr_m := 2 ^ 52; SpecFloat.shr_r := false;
                       SpecFloat.shr_s := false |}, e + k + 1)).
    { unfold SpecFloat.shr_fexp, SpecFloat.fexp, SpecFloat.emin, SpecFloat.Zdigits2.
      rewrite Hd1. change prec with 53. change emax with 1024.
      rewrite Z.max_l by (unfold k; lia).
      replace (54 + (e + k) - 53 - (e + k)) with 1 by lia.
      assert (E53 : m1 = Z.to_pos (2 ^ 53))
        by (apply Pos2Z.inj; rewrite Z2Pos.id by reflexivity; exact Htop).
      rewrite E53. reflexivity. }
    rewrite H2. cbn [SpecFloat.shr_m].
    exists (Z.to_pos (2 ^ 52)), (e + k + 1).
    split.
    + change (2 ^ 52) with (Zpos (Z.to_pos (2 ^ 52))) at 1.
      change prec with 53. change emax with 1024.
      destruct (Z.leb_spec (e + k + 1) (1024 - 53)) as [_ | Hbad];
        [reflexivity | unfold k in Hbad; lia].
    + rewrite Z2Pos.id by reflexivity.
      replace (e + k + 1 - e) with (k + 1) by lia.
      rewrite Z.pow_add_r by lia. change (2 ^ 1) with 2.
      split; [unfold k; lia |].
      assert (Hv : 2 ^ 52 * (2 ^ k * 2) = Zpos m1 * 2 ^ k) by (rewrite Htop; lia).
      split; nia.
  - assert (Hd1 : Zpos (SpecFloat.digits2_pos m1) = 53).
    { apply digits_unique. change (53 - 1) with 52. lia. }
    rewrite (shr_fexp_fits m1 (e + k) Hd1) by (unfold k; lia).
    cbn [SpecFloat.shr_m]. exists m1, (e + k).
    split.
    + change prec with 53. change emax with 1024.
      destruct (Z.leb_spec (e + k) (1024 - 53)) as [_ | Hbad];
        [reflexivity | unfold k in Hbad; lia].
    + replace (e + k - e) with k by lia. split; [unfold k; lia |]. split; nia.
Qed.

Lemma shl_align_spec (mx : positive) (ex ex' : Z) :
  let r := SpecFloat.shl_align mx ex ex' in
  snd r = Z.min ex ex'
  /\ Zpos (fst r) = Zpos mx * 2 ^ (ex - snd r)
  /\ Zpos (SpecFloat.digits2_pos (fst r))
     = Zpos (SpecFloat.digits2_pos mx) + (ex - snd r).
Proof.
  unfold SpecFloat.shl_align.
  destruct (ex' - ex) as [| d | d] eqn:E; cbn [fst snd].
  - rewrite Z.min_l by lia. rewrite Z.sub_diag. cbn. lia.
  - rewrite Z.min_l by lia. rewrite Z.sub_diag. cbn. lia.
  - rewrite Z.min_r by lia. replace (ex - ex') with (Zpos d) by lia.
    pose proof (iter_xO_digits d mx) as Hd. cbv beta in Hd.
    split; [reflexivity |]. split; [apply iter_xO_value | exact Hd].
Qed.

Lemma sval_pos (m : positive) (e : Z) : -200 <= e -> 0 < sval m e.
Proof.
  intros He. unfold sval.
  assert (0 < 2 ^ (e + 200)) by (apply Z.pow_pos_nonneg; lia). nia.
Qed.

Lemma sval_shift (m : positive) (e d : Z) :
  -200 <= e -> 0 <= d -> Zpos m * 2 ^ d * 2 ^ (e + 200) = sval m (e + d).
Proof.
  intros He Hd. unfold sval.
  replace (e + d + 200) with (d + (e + 200)) by lia.
  rewrite (Z.pow_add_r 2 d (e + 200)) by lia. ring.
Qed.

(** [binary_round_aux_normal] on the common scale. *)
Lemma binary_round_aux_sval (P : positive) (e : Z) :
  let D := Zpos (SpecFloat.digits2_pos P) in
  53 <= D -> -1074 <= D + e - 53 -> D + e - 53 < 971 -> -200 <= e ->
  exists (m : positive) (e' : Z),
    SpecFloat.binary_round_aux prec emax false (Zpos P) e SpecFloat.loc_Exact
    = S754_finite false m e'
    /\ D + e - 53 <= e' <= D + e - 52
    /\ 2 ^ 52 * (sval m e' - sval P e) <= sval m e'
    /\ 2 ^ 52 * (sval P e - sval m e') <= sval m e'.
Proof.
  intros D HD Hlo Hhi He.
  destruct (binary_round_aux_normal P e HD Hlo Hhi)
    as (m & e' & Heq & Hee & B1 & B2).
  fold D in Hee.
  exists m, e'. split; [exact Heq |]. split; [exact Hee |].
  assert (Hc : 0 < 2 ^ (e + 200)) by (apply Z.pow_pos_nonneg; lia).
  assert (Hm : sval m e' = Zpos m * 2 ^ (e' - e) * 2 ^ (e + 200)).
  { rewrite sval_shift by lia. f_equal. lia. }
  rewrite Hm. unfold sval.
  set (A := Zpos m * 2 ^ (e' - e)) in *. set (c := 2 ^ (e + 200)) in *.
  split.
  - replace (A * c - Zpos P * c) with ((A - Zpos P) * c) by ring.
    rewrite Z.mul_assoc. apply Z.mul_le_mono_nonneg_r; lia.
  - replace (Zpos P * c - A * c) with ((Zpos P - A) * c) by ring.
    rewrite Z.mul_assoc. apply Z.mul_le_mono_nonneg_r; lia.
Qed.

(** Rounding to binary64 from any positive mantissa, away from underflow
    and overflow. *)
Lemma binary_round_sval (M : positive) (e : Z) :
  let D := Zpos (SpecFloat.digits2_pos M) in
  -200 <= D + e - 53 -> D + e - 53 < 971 -> -200 <= e ->
  exists (m : positive) (e' : Z),
    SpecFloat.binary_round prec emax false M e = S754_finite false m e'
    /\ -200 <= e' <= D + e - 52
    /\ 2 ^ 52 * (sval m e' - sval M e) <= sval m e'
    /\ 2 ^ 52 * (sval M e - sval m e') <= sval m e'.
Proof.
  intros D Hlo Hhi He. unfold SpecFloat.binary_round.
  pose proof (shl_align_spec M e (SpecFloat.fexp prec emax (D + e)))
    as (Hs & Hv & Hd).
  fold D. fold D in Hd.
  destruct (SpecFloat.shl_align M e (SpecFloat.fexp prec emax (D + e)))
    as [mz ez]. cbn [fst snd] in Hs, Hv, Hd.
  assert (Hf : SpecFloat.fexp prec emax (D + e) = D + e - 53).
  { unfold SpecFloat.fexp, SpecFloat.emin. change prec with 53.
    change emax with 1024. apply Z.max_l. lia. }
  rewrite Hf in Hs.
  assert (Hez : -200 <= ez <= e) by lia.
  destruct (binary_round_aux_sval mz ez) as (m & e' & Heq & Hee & B1 & B2);
    try lia.
  exists m, e'. split; [exact Heq |]. split; [lia |].
  assert (Hm : sval mz ez = sval M e).
  { unfold sval at 1. rewrite Hv.
    rewrite sval_shift by lia. f_equal. lia. }
  rewrite <- Hm. split; assumption.
Qed.

(** Canonical positive numbers compare as their values do. *)
Lemma SFltb_sval (ma mb : positive) (ea eb : Z) :
  valid_binary (S754_finite false ma ea) = true ->
  valid_binary (S754_finite false mb eb) = true ->
  -200 <= ea -> -200 <= eb ->
  sval ma ea < sval mb eb ->
  SFltb (S754_finite false ma ea) (S754_finite false mb eb) = true.
Proof.
  unfold SpecFloat.valid_binary, SpecFloat.bounded, SpecFloat.canonical_mantissa,
    SpecFloat.fexp, SpecFloat.emin.
  change prec with 53. change emax with 1024.
  intros Va Vb Hea Heb Hlt.
  apply andb_true_iff in Va, Vb. destruct Va as [Ca _], Vb as [Cb _].
  apply Z.eqb_eq in Ca, Cb.
  pose proof (digits_bounds ma) as [La Ua]. pose proof (digits_bounds mb) as [Lb Ub].
  set (da := Zpos (SpecFloat.digits2_pos ma)) in *.
  set (db := Zpos (SpecFloat.digits2_pos mb)) in *.
  assert (Hda : 1 <= da) by (unfold da; lia).
  assert (Hdb : 1 <= db) by (unfold db; lia).
  unfold SFltb, SFcompare.
  change (IntDef.Z.compare ea eb) with (Z.compare ea eb).
  change (PosDef.Pos.compare_cont Eq ma mb) with (Pos.compare ma mb).
  unfold sval in Hlt.
  destruct (Z.compare_spec ea eb) as [He | He | He].
  - subst eb.
    assert (0 < 2 ^ (ea + 200)) by (apply Z.pow_pos_nonneg; lia).
    destruct (Pos.compare_spec ma mb) as [E | L | G]; [| reflexivity |].
    + subst mb. lia.
    + apply Pos2Z.pos_lt_pos in G. nia.
  - reflexivity.
  - (* a larger exponent with a smaller value is impossible *)
    exfalso.
    assert (Hna : da = 53) by lia.
    assert (Hdb53 : db <= 53) by lia.
    assert (Hb : Zpos mb * 2 ^ (eb + 200) < 2 ^ (53 + (eb + 200))).
    { rewrite (Z.pow_add_r 2 53 (eb + 200)) by lia.
      assert (2 ^ db <= 2 ^ 53) by (apply Z.pow_le_mono_r; lia).
      assert (0 < 2 ^ (eb + 200)) by (apply Z.pow_pos_nonneg; lia). nia. }
    assert (Ha : 2 ^ (52 + (ea + 200)) <= Zpos ma * 2 ^ (ea + 200)).
    { rewrite (Z.pow_add_r 2 52 (ea + 200)) by lia.
      rewrite Hna in La. change (53 - 1) with 52 in La.
      assert (0 < 2 ^ (ea + 200)) by (apply Z.pow_pos_nonneg; lia). nia. }
    assert (2 ^ (53 + (eb + 200)) <= 2 ^ (52 + (ea + 200)))
      by (apply Z.pow_le_mono_r; lia).
    lia.
Qed.

Lemma digits_range (x : positive) (lo hi : Z) :
  0 <= lo -> 2 ^ lo <= Zpos x < 2 ^ hi ->
  lo < Zpos (SpecFloat.digits2_pos x) <= hi.
Proof.
  intros Hlo [H1 H2]. pose proof (digits_bounds x) as [B1 B2].
  set (D := Zpos (SpecFloat.digits2_pos x)) in *.
  assert (HD : 1 <= D) by (unfold D; lia).
  split.
  - destruct (Z.lt_ge_cases lo D) as [H | H]; [exact H |].
    assert (2 ^ D <= 2 ^ lo) by (apply Z.pow_le_mono_r; lia). lia.
  - destruct (Z.le_gt_cases D hi) as [H | H]; [exact H |].
    destruct (Z.le_gt_cases 0 hi) as [Hh | Hh].
    + assert (2 ^ hi <= 2 ^ (D - 1)) by (apply Z.pow_le_mono_r; lia). lia.
    + rewrite Z.pow_neg_r in H2 by lia. lia.
Qed.

Lemma valid_finite (f : float) (m : positive) (e : Z) :
  Prim2SF f = S754_finite false m e ->
  valid_binary (S754_finite false m e) = true
  /\ Zpos m < 2 ^ 53 /\ -1074 <= e.
Proof.
  intros H. pose proof (Prim2SF_valid f) as Hv. rewrite H in Hv.
  split; [exact Hv |].
  unfold SpecFloat.valid_binary, SpecFloat.bounded, SpecFloat.canonical_mantissa,
    SpecFloat.fexp, SpecFloat.emin in Hv.
  change prec with 53 in Hv. change emax with 1024 in Hv.
  apply andb_true_iff in Hv. destruct Hv as [Hc _]. apply Z.eqb_eq in Hc.
  pose proof (digits_bounds m) as [_ Hu].
  assert (Hd : Zpos (SpecFloat.digits2_pos m) <= 53) by lia.
  assert (2 ^ Zpos (SpecFloat.digits2_pos m) <= 2 ^ 53)
    by (apply Z.pow_le_mono_r; lia).
  lia.
Qed.

Lemma sval_float_of_int (p : positive) :
  Zpos p < 2 ^ 53 -> sval (mantissa p) (exponent p) = Zpos p * 2 ^ 200.
Proof.
  intros Hp. pose proof (digits_small p Hp) as Hd.
  unfold sval, exponent. rewrite (mantissa_value p Hd). cbv beta in Hd |- *.
  set (d := Zpos (SpecFloat.digits2_pos p)) in *.
  assert (1 <= d) by (unfold d; lia).
  rewrite <- Z.mul_assoc, <- Z.pow_add_r by lia. f_equal. f_equal. lia.
Qed.

(** The product of a positive integer and a positive normal constant. *)
Lemma mul_const_sval (p mc : positive) (ec : Z) (c : float) :
  Zpos p < 2 ^ 53 ->
  Prim2SF c = S754_finite false mc ec ->
  Zpos (SpecFloat.digits2_pos mc) = 53 -> -100 <= ec <= 0 ->
  exists (m1 : positive) (e1 : Z),
    Prim2SF (PyNum.float_of_int (Zpos p) * c)%float = S754_finite false m1 e1
    /\ -100 <= e1 <= 54
    /\ 2 ^ 52 * (sval m1 e1 - Zpos p * Zpos mc * 2 ^ (ec + 200)) <= sval m1 e1
    /\ 2 ^ 52 * (Zpos p * Zpos mc * 2 ^ (ec + 200) - sval m1 e1) <= sval m1 e1.
Proof.
  intros Hp Hc Hdc Hec.
  assert (Rp : 0 <= Zpos p < 2 ^ 53) by lia.
  pose proof (digits_small p Hp) as Hd.
  pose proof (mantissa_digits p Hd) as Hdm.
  pose proof (digits_bounds (mantissa p)) as Bm.
  pose proof (digits_bounds mc) as Bc. cbv beta in Hd, Hdm, Bm, Bc.
  rewrite Hdm in Bm. rewrite Hdc in Bc.
  change (53 - 1) with 52 in Bm, Bc.
  set (d := Zpos (SpecFloat.digits2_pos p)) in *.
  assert (Hd1 : 1 <= d) by (unfold d; lia).
  assert (HP : 2 ^ 104 <= Zpos (mantissa p * mc) < 2 ^ 106).
  { rewrite Pos2Z.inj_mul.
    change (2 ^ 104) with (2 ^ 52 * 2 ^ 52). change (2 ^ 106) with (2 ^ 53 * 2 ^ 53).
    split; [apply Z.mul_le_mono_nonneg; lia | apply Z.mul_lt_mono_nonneg; lia]. }
  pose proof (digits_range _ 104 106 ltac:(lia) HP) as HD.
  destruct (binary_round_aux_sval (mantissa p * mc) (exponent p + ec))
    as (m1 & e1 & Heq & Hee & B1 & B2); unfold exponent; cbv beta; fold d;
    try lia.
  exists m1, e1.
  rewrite mul_spec, (Prim2SF_float_of_int (Zpos p) Rp), Hc.
  split; [exact Heq |]. unfold exponent in Hee. cbv beta in Hee. fold d in Hee.
  split; [lia |].
  assert (HX : sval (mantissa p * mc) (exponent p + ec)
               = Zpos p * Zpos mc * 2 ^ (ec + 200)).
  { unfold sval, exponent. rewrite Pos2Z.inj_mul, (mantissa_value p Hd).
    cbv beta. fold d.
    assert (Hpow : 2 ^ (ec + 200) = 2 ^ (53 - d) * 2 ^ (d - 53 + ec + 200))
      by (rewrite <- Z.pow_add_r by lia; f_equal; lia).
    rewrite Hpow. ring. }
  unfold exponent in HX, B1, B2. cbv beta in HX, B1, B2. fold d in HX, B1, B2.
  rewrite <- HX. split; assumption.
Qed.

Lemma normalize_sval (M : positive) (ez : Z) :
  -100 <= ez <= 54 -> sval M ez < 2 ^ 400 ->
  exists (m : positive) (e : Z),
    SpecFloat.binary_normalize prec emax (Zpos M) ez false
    = S754_finite false m e
    /\ -200 <= e
    /\ 2 ^ 52 * (sval m e - sval M ez) <= sval m e
    /\ 2 ^ 52 * (sval M ez - sval m e) <= sval m e.
Proof.
  intros Hez Hsmall. pose proof (digits_bounds M) as [Blo _].
  set (D := Zpos (SpecFloat.digits2_pos M)) in *.
  assert (HD : 1 <= D) by (unfold D; lia).
  assert (Hup : D + ez < 201).
  { destruct (Z.lt_ge_cases (D + ez) 201) as [H | H]; [exact H |].
    assert (H1 : 2 ^ 400 <= 2 ^ ((D - 1) + (ez + 200)))
      by (apply Z.pow_le_mono_r; lia).
    rewrite Z.pow_add_r in H1 by lia. unfold sval in Hsmall.
    assert (0 < 2 ^ (ez + 200)) by (apply Z.pow_pos_nonneg; lia). nia. }
  destruct (binary_round_sval M ez) as (m & e & Heq & Hee & B1 & B2);
    fold D; try lia.
  exists m, e. split; [exact Heq |]. split; [lia | split; assumption].
Qed.

Lemma one_sval : Prim2SF 1%float = S754_finite false 4503599627370496 (-52)
                 /\ sval 4503599627370496 (-52) = 2 ^ 200.
Proof. split; reflexivity. Qed.

Lemma aligned_sval (m : positive) (e ez : Z) :
  -200 <= ez <= e ->
  sval (fst (SpecFloat.shl_align m e ez)) ez = sval m e.
Proof.
  intros He. pose proof (shl_align_spec m e ez) as (Hs & Hv & _).
  cbv zeta in Hs, Hv. rewrite Z.min_r in Hs by lia. rewrite Hs in Hv.
  unfold sval at 1. rewrite Hv.
  rewrite sval_shift by lia. f_equal. lia.
Qed.

(** Adding 1 to, and taking 1 from, a positive number of moderate size. *)
Lemma add_one_sval (r : float) (m1 : positive) (e1 : Z) :
  Prim2SF r = S754_finite false m1 e1 -> -100 <= e1 <= 54 ->
  exists (m2 : positive) (e2 : Z),
    Prim2SF (r + 1)%float = S754_finite false m2 e2
    /\ -200 <= e2
    /\ 2 ^ 52 * (sval m1 e1 + 2 ^ 200 - sval m2 e2) <= sval m2 e2.
Proof.
  intros Hr He. destruct one_sval as [H1 S1].
  destruct (valid_finite r m1 e1 Hr) as (_ & Hm1 & _).
  rewrite add_spec, Hr, H1. unfold SF64add, SpecFloat.SFadd.
  cbn [SpecFloat.cond_Zopp].
  change (IntDef.Z.min e1 (-52)) with (Z.min e1 (-52)).
  set (ez := Z.min e1 (-52)).
  assert (Hez : -100 <= ez <= -52) by (unfold ez; lia).
  pose proof (aligned_sval m1 e1 ez ltac:(lia)) as A1.
  pose proof (aligned_sval 4503599627370496 (-52) ez ltac:(lia)) as A2.
  set (a := fst (SpecFloat.shl_align m1 e1 ez)) in *.
  set (b := fst (SpecFloat.shl_align 4503599627370496 (-52) ez)) in *.
  change (IntDef.Z.add (Zpos a) (Zpos b)) with (Zpos (a + b)).
  assert (HM : sval (a + b) ez = sval m1 e1 + 2 ^ 200).
  { rewrite <- A1, <- S1, <- A2. unfold sval. rewrite Pos2Z.inj_add. ring. }
  assert (Hs1 : sval m1 e1 < 2 ^ 307).
  { unfold sval. change (2 ^ 307) with (2 ^ 53 * 2 ^ 254).
    assert (2 ^ (e1 + 200) <= 2 ^ 254) by (apply Z.pow_le_mono_r; lia).
    assert (0 < 2 ^ (e1 + 200)) by (apply Z.pow_pos_nonneg; lia). nia. }
  destruct (normalize_sval (a + b) ez) as (m2 & e2 & Heq & Hlow & _ & B2);
    [lia | rewrite HM; change (2 ^ 400) with (2 ^ 307 * 2 ^ 93);
           assert (2 ^ 200 < 2 ^ 307) by reflexivity; lia |].
  exists m2, e2. split; [exact Heq |]. split; [exact Hlow |].
  rewrite <- HM. exact B2.
Qed.

Lemma sub_one_sval (r : float) (m1 : positive) (e1 : Z) :
  Prim2SF r = S754_finite false m1 e1 -> -100 <= e1 <= 54 ->
  2 ^ 200 < sval m1 e1 ->
  exists (m2 : positive) (e2 : Z),
    Prim2SF (r - 1)%float = S754_finite false m2 e2
    /\ -200 <= e2
    /\ 2 ^ 52 * (sval m2 e2 - (sval m1 e1 - 2 ^ 200)) <= sval m2 e2.
Proof.
  intros Hr He Hbig. destruct one_sval as [H1 S1].
  destruct (valid_finite r m1 e1 Hr) as (_ & Hm1 & _).
  rewrite sub_spec, Hr, H1. unfold SF64sub, SpecFloat.SFsub.
  cbn [SpecFloat.cond_Zopp].
  change (IntDef.Z.min e1 (-52)) with (Z.min e1 (-52)).
  set (ez := Z.min e1 (-52)).
  assert (Hez : -100 <= ez <= -52) by (unfold ez; lia).
  pose proof (aligned_sval m1 e1 ez ltac:(lia)) as A1.
  pose proof (aligned_sval 4503599627370496 (-52) ez ltac:(lia)) as A2.
  set (a := fst (SpecFloat.shl_align m1 e1 ez)) in *.
  set (b := fst (SpecFloat.shl_align 4503599627370496 (-52) ez)) in *.
  change (IntDef.Z.sub (Zpos a) (Zpos b)) with (Zpos a - Zpos b).
  assert (Hc : 0 < 2 ^ (ez + 200)) by (apply Z.pow_pos_nonneg; lia).
  assert (Hab : Zpos b < Zpos a).
  { rewrite <- A1, <- S1, <- A2 in Hbig. unfold sval in Hbig. nia. }
  destruct (Zpos a - Zpos b) as [| M | M] eqn:EM; [lia | | lia].
  assert (HM : sval M ez = sval m1 e1 - 2 ^ 200).
  { rewrite <- A1, <- S1, <- A2. unfold sval. rewrite <- EM. ring. }
  assert (Hs1 : sval m1 e1 < 2 ^ 307).
  { unfold sval. change (2 ^ 307) with (2 ^ 53 * 2 ^ 254).
    assert (2 ^ (e1 + 200) <= 2 ^ 254) by (apply Z.pow_le_mono_r; lia).
    assert (0 < 2 ^ (e1 + 200)) by (apply Z.pow_pos_nonneg; lia). nia. }
  destruct (normalize_sval M ez) as (m2 & e2 & Heq & Hlow & B1 & _);
    [lia | rewrite HM; change (2 ^ 400) with (2 ^ 307 * 2 ^ 93);
           assert (0 < 2 ^ 200) by reflexivity; lia |].
  exists m2, e2. split; [exact Heq |]. split; [exact Hlow |].
  rewrite <- HM. exact B1.
Qed.

#[local] Set Warnings "-inexact-float".

Lemma consts_sval :
  Prim2SF 0.99%float = S754_finite false 8917127262193582 (-53)
  /\ Prim2SF 1.01%float = S754_finite false 4548635623644201 (-52).
Proof. split; reflexivity. Qed.

Lemma scale_split : 2 ^ 200 = 2 ^ 53 * 2 ^ (-53 + 200)
                    /\ 2 ^ (-52 + 200) = 2 * 2 ^ (-53 + 200)
                    /\ 0 < 2 ^ (-53 + 200).
Proof. repeat split. Qed.

(** The lower display limit of a bound lies below every integer that is
    not below the bound. *)
Lemma lower_limit_below (m v : Z) :
  0 <= m <= v -> v < 2 ^ 53 ->
  (PyNum.float_of_int m * 0.99 - 1 <? PyNum.float_of_int v)%float = true.
Proof.
  intros Hmv Hv.
  assert (Rv : 0 <= v < 2 ^ 53) by lia.
  destruct (Z.le_gt_cases m 1) as [Hsmall | Hbig].
  - (* 0 and 1: the limit is negative *)
    rewrite ltb_spec, (Prim2SF_float_of_int v Rv).
    assert (Hneg : exists mn en,
               Prim2SF (PyNum.float_of_int m * 0.99 - 1)%float
               = S754_finite true mn en).
    { assert (Hm : m = 0 \/ m = 1) by lia.
      destruct Hm as [-> | ->]; eexists; eexists; vm_compute; reflexivity. }
    destruct Hneg as (mn & en & ->).
    destruct v as [| q | q]; [reflexivity | reflexivity | lia].
  - destruct m as [| p | p]; try lia. destruct v as [| q | q]; try lia.
    destruct consts_sval as [Hc _].
    destruct (mul_const_sval p 8917127262193582 (-53) 0.99%float)
      as (m1 & e1 & H1 & He1 & B1 & B2); [lia | exact Hc | reflexivity | lia |].
    destruct scale_split as (T53 & _ & HU).
    set (U := 2 ^ (-53 + 200)) in *.
    assert (HW : 2 * U <= Zpos p * U) by nia.
    assert (HWv : Zpos p * U <= Zpos q * U) by nia.
    replace (Zpos p * 8917127262193582 * U)
      with (8917127262193582 * (Zpos p * U)) in B1, B2 by ring.
    set (W := Zpos p * U) in *. set (Wv := Zpos q * U) in *.
    set (R1 := sval m1 e1) in *.
    change (2 ^ 52) with 4503599627370496 in B1, B2.
    change (2 ^ 53) with 9007199254740992 in T53.
    destruct (sub_one_sval _ m1 e1 H1 He1) as (m2 & e2 & H2 & L2 & B3).
    { fold R1. rewrite T53. lia. }
    fold R1 in B3. rewrite T53 in B3.
    change (2 ^ 52) with 4503599627370496 in B3.
    destruct (valid_finite _ _ _ H2) as (V2 & _ & _).
    assert (Rq : 0 <= Zpos q < 2 ^ 53) by lia.
    pose proof (Prim2SF_float_of_int (Zpos q) Rq) as Hq. cbv iota in Hq.
    destruct (valid_finite _ _ _ Hq) as (Vq & _ & _).
    rewrite ltb_spec, H2, Hq.
    apply SFltb_sval;
      [exact V2 | exact Vq | exact L2 | unfold exponent; cbv beta; lia |].
    rewrite (sval_float_of_int q) by lia. rewrite T53.
    replace (Zpos q * (9007199254740992 * U)) with (9007199254740992 * Wv)
      by (unfold Wv; ring).
    set (R2 := sval m2 e2) in *. clearbody R1 R2 W Wv U. lia.
Qed.

(** The upper display limit of a bound lies above every integer that is
    not above the bound. *)
Lemma upper_limit_above (M v : Z) :
  0 <= v <= M -> M < 2 ^ 53 ->
  (PyNum.float_of_int v <? PyNum.float_of_int M * 1.01 + 1)%float = true.
Proof.
  intros HvM HM.
  assert (Rv : 0 <= v < 2 ^ 53) by lia.
  destruct M as [| p | p]; try lia.
  - assert (v = 0) by lia. subst v. vm_compute. reflexivity.
  - destruct consts_sval as [_ Hc].
    destruct (mul_const_sval p 4548635623644201 (-52) 1.01%float)
      as (m1 & e1 & H1 & He1 & B1 & B2); [lia | exact Hc | reflexivity | lia |].
    destruct scale_split as (T53 & T52 & HU).
    rewrite T52 in B1, B2.
    set (U := 2 ^ (-53 + 200)) in *.
    replace (Zpos p * 4548635623644201 * (2 * U))
      with (9097271247288402 * (Zpos p * U)) in B1, B2 by ring.
    set (W := Zpos p * U) in *.
    set (R1 := sval m1 e1) in *.
    change (2 ^ 52) with 4503599627370496 in B1, B2.
    change (2 ^ 53) with 9007199254740992 in T53.
    destruct (add_one_sval _ m1 e1 H1 He1) as (m2 & e2 & H2 & L2 & B3).
    fold R1 in B3. rewrite T53 in B3.
    change (2 ^ 52) with 4503599627370496 in B3.
    destruct (valid_finite _ _ _ H2) as (V2 & _ & _).
    rewrite ltb_spec, H2, (Prim2SF_float_of_int v Rv).
    destruct v as [| q | q]; [reflexivity | | lia].
    assert (Rq : 0 <= Zpos q < 2 ^ 53) by lia.
    pose proof (Prim2SF_float_of_int (Zpos q) Rq) as Hq. cbv iota in Hq.
    destruct (valid_finite _ _ _ Hq) as (Vq & _ & _).
    apply SFltb_sval;
      [exact Vq | exact V2 | unfold exponent; cbv beta; lia | exact L2 |].
    rewrite (sval_float_of_int q) by lia. rewrite T53.
    assert (HWv : 0 < Zpos q * U <= W) by (unfold W; nia).
    replace (Zpos q * (9007199254740992 * U))
      with (9007199254740992 * (Zpos q * U)) by ring.
    set (Wv := Zpos q * U) in *.
    set (R2 := sval m2 e2) in *. clearbody R1 R2 W Wv U. lia.
Qed.

#[local] Set Warnings "inexact-float".

End Rounding.

(** * The view *)

Section ViewFacts.
Import Updater.

(** After any non-empty sequence of 32-bit records the axis limits
    strictly enclose the bounds, and with them every point of the series:
    in binary64 arithmetic, [x_min * 0.99 - 1] is below [x_min] and every
    [x] seen, and [x_max * 1.01 + 1] is above [x_max] and every [x] seen;
    likewise for [y]. *)
Theorem view_contains_series (records : list (Z * Z))
        (xlim ylim : float * float) :
  Forall Spec.record_ok records -> records <> [] ->
  let g := process records (init xlim ylim) in
  ((fst (ax_xlim g) <? x_min g)%float = true
   /\ (x_max g <? snd (ax_xlim g))%float = true
   /\ forall v : float, In v (x g) ->
        (fst (ax_xlim g) <? v)%float = true
        /\ (v <? snd (ax_xlim g))%float = true)
  /\ ((fst (ax_ylim g) <? y_min g)%float = true
      /\ (y_max g <? snd (ax_ylim g))%float = true
      /\ forall v : float, In v (y g) ->
           (fst (ax_ylim g) <? v)%float = true
           /\ (v <? snd (ax_ylim g))%float = true).
Proof.
  intros Hok Hne g. destruct init_range as [R0 R9].
  destruct (view_in_step_with_state records (init xlim ylim) Hne) as [_ Hlim].
  fold g in Hlim. unfold Spec.limits, Spec.display_limits, Spec.bounds in Hlim.
  injection Hlim as Hxl Hyl.
  destruct (process_init_bounds records xlim ylim Hok) as (B1 & B2 & B3 & B4).
  fold g in B1, B2, B3, B4.
  destruct (process_series records (init xlim ylim)) as [Sx Sy].
  fold g in Sx, Sy. cbn [init x y app] in Sx, Sy.
  pose proof (records_fst records Hok) as Ux.
  pose proof (records_snd records Hok) as Uy.
  pose proof (maximum_range 0 _ R0 Ux) as MX.
  pose proof (minimum_range 999999999 _ R9 Ux) as mX.
  pose proof (maximum_range 0 _ R0 Uy) as MY.
  pose proof (minimum_range 999999999 _ R9 Uy) as mY.
  destruct (maximum_spec 0 (map fst records)) as [_ AMx].
  destruct (minimum_spec 999999999 (map fst records)) as [_ Amx].
  destruct (maximum_spec 0 (map snd records)) as [_ AMy].
  destruct (minimum_spec 999999999 (map snd records)) as [_ Amy].
  rewrite Forall_forall in AMx, Amx, AMy, Amy, Ux, Uy.
  assert (R9' : 999999999 < 2 ^ 53) by reflexivity.
  assert (Hmm : forall (lo hi : Z) (l : list Z),
             l <> [] ->
             (forall v, In v (lo :: l) -> Spec.minimum lo l <= v) ->
             (forall v, In v (hi :: l) -> v <= Spec.maximum hi l) ->
             Spec.minimum lo l <= Spec.maximum hi l).
  { intros lo hi [| a l] Hl Hmin Hmax; [contradiction |].
    pose proof (Hmin a (or_intror (or_introl eq_refl))).
    pose proof (Hmax a (or_intror (or_introl eq_refl))). lia. }
  assert (Nx : map fst records <> []) by (destruct records; [contradiction | discriminate]).
  assert (Ny : map snd records <> []) by (destruct records; [contradiction | discriminate]).
  pose proof (Hmm 999999999 0 _ Nx Amx AMx) as Xo.
  pose proof (Hmm 999999999 0 _ Ny Amy AMy) as Yo.
  rewrite Hxl, Hyl, B1, B2, B3, B4, Sx, Sy. unfold Spec.padded. cbn [fst snd].
  split; (split; [| split]).
  - apply lower_limit_below; lia.
  - apply upper_limit_above; lia.
  - intros v Hin. apply in_map_iff in Hin. destruct Hin as (d & <- & Hd).
    assert (Hf : In (fst d) (map fst records)) by (apply in_map; exact Hd).
    pose proof (u32_small _ (Ux _ Hf)).
    pose proof (Amx _ (or_intror Hf)). pose proof (AMx _ (or_intror Hf)).
    cbv beta in *.
    split; [apply lower_limit_below | apply upper_limit_above]; lia.
  - apply lower_limit_below; lia.
  - apply upper_limit_above; lia.
  - intros v Hin. apply in_map_iff in Hin. destruct Hin as (d & <- & Hd).
    assert (Hf : In (snd d) (map snd records)) by (apply in_map; exact Hd).
    pose proof (u32_small _ (Uy _ Hf)).
    pose proof (Amy _ (or_intror Hf)). pose proof (AMy _ (or_intror Hf)).
    cbv beta in *.
    split; [apply lower_limit_below | apply upper_limit_above]; lia.
Qed.

Lemma view_contains_series_witness :
  (Forall Spec.record_ok [(7, 3000000000); (2, 5)]
   /\ [(7, 3000000000); (2, 5)] <> [])
  /\ let g := process [(7, 3000000000); (2, 5)] (init (0, 1)%float (0, 1)%float) in
     (fst (ax_xlim g) <? x_min g)%float = true
     /\ (x_max g <? snd (ax_xlim g))%float = true.
Proof.
  assert (Hok : Forall Spec.record_ok [(7, 3000000000); (2, 5)]).
  { repeat constructor; cbn; lia. }
  assert (Hne : [(7, 3000000000); (2, 5)] <> []) by discriminate.
  split; [exact (conj Hok Hne) |].
  destruct (view_contains_series [(7, 3000000000); (2, 5)]
              (0, 1)%float (0, 1)%float Hok Hne) as [(H1 & H2 & _) _].
  split; [exact H1 | exact H2].
Defined.

End ViewFacts.
